(** * Canonical Huffman coding: [ibragimov.imil/F0/huffmanAlgorithm.cpp]

    A shallow embedding of the Huffman engine of the repository and the
    properties of its table builder, encoder and decoder, followed by the
    printer of word sets of [chernikova.galyna/F0/dictionary.cpp].

    Conventions of the embedding.
    - [std::string] is a list of [ascii] characters; the text to compress and
      the "bit" strings made of the characters '0' and '1' live in the same
      type, exactly as in the source.
    - [char] is compared as a signed 8-bit value (the x86-64 ABI); nothing
      below depends on more than its being a total order.
    - [size_t] is a 64-bit unsigned integer: [N] with the wrap-around of
      addition, subtraction and conversion written out.
    - A C++ call either returns, throws [std::invalid_argument], has undefined
      behaviour, or (for the one loop that may run for ever) exhausts the
      iteration budget it is given: type [outcome]. *)

From Equations Require Import Equations.
From Stdlib Require Import Ascii String Bool Arith NArith ZArith Lia.
From Stdlib Require Import List Permutation Sorted.
Import ListNotations.

Local Open Scope N_scope.

(** ** Outcomes of a call *)

Inductive outcome (A : Type) : Type :=
| Returns (a : A)
| InvalidArgument          (* throw std::invalid_argument("") *)
| UndefinedBehaviour       (* dereference of end(), back() of an empty list, null pointer *)
| OutOfFuel.               (* the iteration budget of a loop is exhausted *)

Arguments Returns {A} a.
Arguments InvalidArgument {A}.
Arguments UndefinedBehaviour {A}.
Arguments OutOfFuel {A}.

Definition bind {A B : Type} (m : outcome A) (k : A -> outcome B) : outcome B :=
  match m with
  | Returns a => k a
  | InvalidArgument => InvalidArgument
  | UndefinedBehaviour => UndefinedBehaviour
  | OutOfFuel => OutOfFuel
  end.

Notation "x <- m ;; k" := (bind m (fun x => k))
  (at level 61, m at next level, right associativity).

(** Matching on a value while keeping the equation, for the loops below. *)
Definition inspect {A : Type} (a : A) : {b : A | a = b} := exist _ a eq_refl.

(** ** Characters, strings, [size_t] *)

Definition cstring := list ascii.

(** Reading of a string literal. *)
Definition str (s : string) : cstring := list_ascii_of_string s.

Definition char_code (c : ascii) : Z :=
  let n := Z.of_N (N_of_ascii c) in
  if (n <? 128)%Z then n else (n - 256)%Z.

Definition char_ltb (a b : ascii) : bool := (char_code a <? char_code b)%Z.
Definition char_eqb (a b : ascii) : bool := Ascii.eqb a b.

Definition size_t := N.
Definition SIZE_MAX1 : N := 2 ^ 64.
Definition size_add (a b : size_t) : size_t := (a + b) mod SIZE_MAX1.
Definition size_sub (a b : size_t) : size_t := (a + SIZE_MAX1 - b mod SIZE_MAX1) mod SIZE_MAX1.
Definition size_of_nat (n : nat) : size_t := N.of_nat n mod SIZE_MAX1.

Definition string_eqb (a b : cstring) : bool :=
  if list_eq_dec ascii_dec a b then true else false.

(** ** [std::multimap< size_t, char >]

    The entries in iteration order: ascending keys, entries of equal key in
    insertion order ([insert] places the new entry at the upper bound of its
    key). *)

Definition multimap := list (size_t * ascii).

Fixpoint mm_insert (p : size_t * ascii) (m : multimap) : multimap :=
  match m with
  | [] => [p]
  | q :: r => if fst p <? fst q then p :: m else q :: mm_insert p r
  end.

(** ** [std::map< char, std::string >]

    The entries in iteration order: strictly ascending keys. [map_set] is
    [m[k] = v]; [map_find] is the lookup. *)

Definition encodings := list (ascii * cstring).

Fixpoint map_set (k : ascii) (v : cstring) (m : encodings) : encodings :=
  match m with
  | [] => [(k, v)]
  | (k', v') :: r =>
      if char_ltb k k' then (k, v) :: m
      else if char_ltb k' k then (k', v') :: map_set k v r
      else (k, v) :: r
  end.

Fixpoint map_find (k : ascii) (m : encodings) : option cstring :=
  match m with
  | [] => None
  | (k', v) :: r => if char_eqb k k' then Some v else map_find k r
  end.

(** ** [std::map< std::string, char >] of [decode]

    Only [operator[]] assignment and [find] are applied to it, never an
    iteration, so the most recent binding first is an exact model. *)

Definition decodings := list (cstring * ascii).

Definition dmap_set (k : cstring) (v : ascii) (m : decodings) : decodings := (k, v) :: m.

Fixpoint dmap_find (k : cstring) (m : decodings) : option ascii :=
  match m with
  | [] => None
  | (k', v) :: r => if string_eqb k k' then Some v else dmap_find k r
  end.

(** ** [Node] of huffmanNode.hpp *)

(** Modelled from the spec: the declaration of [Node] and of its two
    constructors, whose header huffmanNode.hpp is not among the sources. The
    spec describes a node as a symbol and a weight with, for an internal node,
    an owned left and right child, the first node passed becoming the left
    child and the second the right one. The accesses of huffmanAlgorithm.cpp
    fix the rest: [pair] is (symbol, weight), [left] and [right] are owning
    pointers that are tested for null one by one. *)
#[warnings="-register-all"]
Inductive Node : Type :=
  mkNode { pair : ascii * size_t; left : option Node; right : option Node }.

Definition weight (n : Node) : size_t := snd (pair n).
Definition symbol (n : Node) : ascii := fst (pair n).

(** Modelled from the spec: [Node(char, size_t)], a node without children,
    and [Node(char, size_t, left, right)], which takes over the two nodes as
    its left and right child. *)
Definition makeLeaf (c : ascii) (w : size_t) : Node := mkNode (c, w) None None.
Definition makeInternal (c : ascii) (w : size_t) (l r : Node) : Node :=
  mkNode (c, w) (Some l) (Some r).

Module detail.

(** *** createFrequencyTable *)

(** [std::sort] on characters: the result is the ascending rearrangement,
    whatever the algorithm; insertion sort computes it. *)
Fixpoint sort_insert (c : ascii) (l : cstring) : cstring :=
  match l with
  | [] => [c]
  | x :: r => if char_ltb x c then x :: sort_insert c r else c :: l
  end.

Definition sort (l : cstring) : cstring := fold_right sort_insert [] l.

(** [std::unique_copy]: one copy of each run of equal characters. *)
Fixpoint unique_copy (l : cstring) : cstring :=
  match l with
  | [] => []
  | x :: r =>
      match r with
      | [] => [x]
      | y :: _ => if char_eqb x y then unique_copy r else x :: unique_copy r
      end
  end.

(** [std::count], converted to [size_t]. *)
Definition count (l : cstring) (c : ascii) : size_t :=
  size_of_nat (count_occ ascii_dec l c).

Definition createFrequencyTable (text : cstring) : multimap :=
  let copiedText := sort text in
  let alphabet := unique_copy copiedText in
  fold_left (fun frequencyTable c => mm_insert (count copiedText c, c) frequencyTable)
            alphabet [].

(** *** extractMinimum, isMinWeight *)

Definition isMinWeight (lhs rhs : Node) : bool := weight lhs <=? weight rhs.

(** [std::min_element(first, last, comp)]: the scan every standard library
    implements, [smallest] moving to the current position whenever
    the comparator accepts the current element against the smallest one. The result is a position, [None] for
    [last] on an empty range. *)
Fixpoint min_element_from {A : Type} (comp : A -> A -> bool)
    (smallest : nat) (smallestValue : A) (current : nat) (l : list A) : nat :=
  match l with
  | [] => smallest
  | x :: r =>
      if comp x smallestValue then min_element_from comp current x (S current) r
      else min_element_from comp smallest smallestValue (S current) r
  end.

Definition min_element {A : Type} (comp : A -> A -> bool) (l : list A) : option nat :=
  match l with
  | [] => None
  | x :: r => Some (min_element_from comp 0%nat x 1%nat r)
  end.

(** The node at [minIter] is moved out, which leaves a null pointer in its
    slot, the only one of the list; erase-remove of that value deletes the
    slot and keeps the other nodes in order. The result is the extracted
    pointer (null on an empty list) and the list left behind. *)
Definition extractMinimum (nodes : list Node) : option Node * list Node :=
  match min_element isMinWeight nodes with
  | None => (None, nodes)
  | Some minIter => (nth_error nodes minIter, firstn minIter nodes ++ skipn (S minIter) nodes)
  end.

(** *** createHuffmanTree *)

(** One iteration of the merge loop. *)
Definition mergeStep (weights : list Node) : outcome (list Node) :=
  let (left, weights1) := extractMinimum weights in
  let (right, weights2) := extractMinimum weights1 in
  match left, right with
  | Some l, Some r =>
      let value := size_add (weight l) (weight r) in
      Returns (weights2 ++ [makeInternal " " value l r])
  | _, _ => UndefinedBehaviour
  end.

(** The loop [while (weights.size() > 1)]: each iteration takes two nodes
    out and puts one in, so the size is the measure. *)
Equations? mergeLoop (weights : list Node) : outcome (list Node)
  by wf (length weights) lt :=
  mergeLoop weights with inspect (1 <? length weights)%nat := {
    | exist _ false _ => Returns weights
    | exist _ true Hsize with inspect (mergeStep weights) := {
        | exist _ (Returns merged) Hstep => mergeLoop merged
        | exist _ InvalidArgument _ => InvalidArgument
        | exist _ UndefinedBehaviour _ => UndefinedBehaviour
        | exist _ OutOfFuel _ => OutOfFuel } }.
Proof.
  apply Nat.ltb_lt in Hsize.
  unfold mergeStep, extractMinimum in Hstep.
  destruct (min_element isMinWeight weights) as [i|] eqn:Hi.
  2:{ rewrite Hi in Hstep. discriminate. }
  destruct (nth_error weights i) as [l|] eqn:Hl.
  2:{ destruct (min_element isMinWeight (firstn i weights ++ skipn (S i) weights));
      discriminate. }
  assert (Hil : (i < length weights)%nat) by (apply nth_error_Some; congruence).
  set (weights1 := firstn i weights ++ skipn (S i) weights) in *.
  assert (H1 : S (length weights1) = length weights).
  { subst weights1. rewrite length_app, length_firstn, length_skipn. lia. }
  destruct (min_element isMinWeight weights1) as [j|]; [|discriminate].
  cbn in Hstep.
  destruct (nth_error weights1 j) as [r|] eqn:Hr; [|discriminate].
  assert (Hjl : (j < length weights1)%nat) by (apply nth_error_Some; congruence).
  injection Hstep as <-.
  change (match weights1 with [] => [] | _ :: t => skipn j t end)
    with (skipn (S j) weights1).
  rewrite !length_app, length_firstn, length_skipn. simpl. lia.
Qed.

(** [weights.back()]; the list is empty exactly when the table is. *)
Fixpoint back {A : Type} (l : list A) : option A :=
  match l with
  | [] => None
  | x :: r => match r with [] => Some x | _ :: _ => back r end
  end.

Definition createHuffmanTree (frequencyTable : multimap) : outcome Node :=
  let weights := map (fun p => makeLeaf (snd p) (fst p)) frequencyTable in
  weights <- mergeLoop weights ;;
  match back weights with
  | Some root => Returns root
  | None => UndefinedBehaviour
  end.

(** *** createCodesLengthTable *)

Definition opt_list {A : Type} (o : option A) : list A :=
  match o with Some x => [x] | None => [] end.

Fixpoint node_size (n : Node) : nat :=
  match n with
  | mkNode _ l r =>
      S ((match l with Some x => node_size x | None => 0 end) +
         (match r with Some x => node_size x | None => 0 end))
  end.

Definition forest_size (q : list Node) : nat := list_sum (map node_size q).

(** The inner loop [while (numberOfNodes--)]: the front node is popped, a
    node without children is recorded at the current height, the children
    are pushed at the back. [front()] of an empty queue is undefined. *)
Fixpoint processLevel (numberOfNodes : nat) (height : size_t)
    (queue : list Node) (lengthsTable : multimap) : outcome (list Node * multimap) :=
  match numberOfNodes with
  | O => Returns (queue, lengthsTable)
  | S n =>
      match queue with
      | [] => UndefinedBehaviour
      | current :: queue =>
          let lengthsTable :=
            match left current, right current with
            | None, None => mm_insert (height, symbol current) lengthsTable
            | _, _ => lengthsTable
            end in
          let queue := queue ++ opt_list (left current) in
          let queue := queue ++ opt_list (right current) in
          processLevel n height queue lengthsTable
      end
  end.

(** The outer loop [while (!queue.empty())], one level of the tree per
    iteration; the nodes still to visit are the measure. *)
Equations? levelLoop (queue : list Node) (height : size_t) (lengthsTable : multimap)
  : outcome multimap by wf (forest_size queue) lt :=
  levelLoop [] height lengthsTable := Returns lengthsTable;
  levelLoop (n :: q) height lengthsTable
    with inspect (processLevel (length (n :: q)) height (n :: q) lengthsTable) := {
    | exist _ (Returns (queue', lengthsTable')) Hlevel =>
        levelLoop queue' (size_add height 1) lengthsTable'
    | exist _ InvalidArgument _ => InvalidArgument
    | exist _ UndefinedBehaviour _ => UndefinedBehaviour
    | exist _ OutOfFuel _ => OutOfFuel }.
Proof.
  change (processLevel (S (length q)) height (n :: q) lengthsTable
          = Returns (queue', lengthsTable')) in Hlevel.
  (* every node processed leaves the queue and puts its children in *)
  assert (Hsize : forall m queue table,
    processLevel m height queue table = Returns (queue', lengthsTable') ->
    (forest_size queue' + m = forest_size queue)%nat).
  { unfold forest_size. induction m as [|m IH]; intros queue table H; simpl in H.
    - injection H as <- _. lia.
    - destruct queue as [|[p l r] queue]; [discriminate|].
      apply IH in H. simpl in *. rewrite !map_app, !list_sum_app in H.
      destruct l, r; simpl in *; lia. }
  apply Hsize in Hlevel. lia.
Qed.

Definition createCodesLengthTable (huffmanTree : Node) : outcome multimap :=
  levelLoop [huffmanTree] 0 [].

(** *** increment, flip *)

Definition flip (c : ascii) : ascii :=
  if char_eqb c "0" then "1"%char else "0"%char.

(** Position of the first occurrence of [c], as [std::find] gives it. *)
Fixpoint find_char (c : ascii) (l : cstring) : option nat :=
  match l with
  | [] => None
  | x :: r => if char_eqb x c then Some 0%nat else option_map S (find_char c r)
  end.

(** The reverse iterators run over [rev code]: the characters up to and
    including the last '0' of [code] (all of them when there is none) are
    flipped. *)
Definition increment (code : cstring) : cstring :=
  let reversed := rev code in
  let flipUpTo :=
    match find_char "0" reversed with
    | Some lastFalse => S lastFalse
    | None => length reversed
    end in
  rev (map flip (firstn flipUpTo reversed) ++ skipn flipUpTo reversed).

(** *** createEncodingTable (from the table of code lengths) *)

(** The loop over the entries after the first; [previous] is the key of
    [std::prev(currentPair)]. *)
Fixpoint assignCodes (previous : size_t) (code : cstring) (rest : multimap)
    (encodingTable : encodings) : encodings :=
  match rest with
  | [] => encodingTable
  | currentPair :: rest =>
      let code := increment code in
      let code := code ++ repeat "0"%char (N.to_nat (size_sub (fst currentPair) previous)) in
      assignCodes (fst currentPair) code rest (map_set (snd currentPair) code encodingTable)
  end.

(** [cbegin()] of an empty table is [cend()]; reading through it is
    undefined. *)
Definition createEncodingTable (lengthsTable : multimap) : outcome encodings :=
  match lengthsTable with
  | [] => UndefinedBehaviour
  | currentPair :: rest =>
      let code := repeat "0"%char (N.to_nat (fst currentPair)) in
      Returns (assignCodes (fst currentPair) code rest (map_set (snd currentPair) code []))
  end.

(** *** replaceSubstring *)

Fixpoint starts_with (p s : cstring) : bool :=
  match p, s with
  | [], _ => true
  | _ :: _, [] => false
  | a :: p', b :: s' => char_eqb a b && starts_with p' s'
  end.

(** Position of the first occurrence of [p] in [s]. *)
Fixpoint find_sub (p s : cstring) : option nat :=
  if starts_with p s then Some 0%nat
  else match s with
       | [] => None
       | _ :: r => option_map S (find_sub p r)
       end.

(** [str.find(toReplace, pos)]; [None] is [npos]. *)
Definition string_find (s toReplace : cstring) (pos : nat) : option nat :=
  if (length s <? pos)%nat then None
  else option_map (Nat.add pos) (find_sub toReplace (skipn pos s)).

(** [str.replace(pos, n, replaceWith)] for [pos <= size]. *)
Definition string_replace (s : cstring) (pos n : nat) (replaceWith : cstring) : cstring :=
  firstn pos s ++ replaceWith ++ skipn (pos + n) s.

(** The loop [while (pos != npos)]. The search resumes at the position of the
    replacement, not after it, so the loop need not end: [fuel] bounds the
    number of iterations. *)
Fixpoint replaceLoop (fuel : nat) (s toReplace replaceWith : cstring) (pos : option nat)
    : outcome cstring :=
  match pos with
  | None => Returns s
  | Some p =>
      match fuel with
      | O => OutOfFuel
      | S fuel =>
          let s := string_replace s p (length toReplace) replaceWith in
          replaceLoop fuel s toReplace replaceWith (string_find s toReplace p)
      end
  end.

Definition is_empty {A : Type} (l : list A) : bool :=
  match l with [] => true | _ :: _ => false end.

Definition replaceSubstring (fuel : nat) (s toReplace replaceWith : cstring)
    : outcome cstring :=
  if is_empty toReplace || is_empty s || is_empty replaceWith then InvalidArgument
  else replaceLoop fuel s toReplace replaceWith (string_find s toReplace 0).

End detail.

(** ** The public interface *)

Definition createEncodingTable (text : cstring) : outcome encodings :=
  tree <- detail.createHuffmanTree (detail.createFrequencyTable text) ;;
  table <- detail.createCodesLengthTable tree ;;
  detail.createEncodingTable table.

(** [fuel] bounds the iterations of each call of [replaceSubstring]. *)
Fixpoint encodeLoop (fuel : nat) (encodedText : cstring) (entries : encodings)
    : outcome cstring :=
  match entries with
  | [] => Returns encodedText
  | (c, code) :: entries =>
      encodedText <- detail.replaceSubstring fuel encodedText [c] code ;;
      encodeLoop fuel encodedText entries
  end.

Definition encode (fuel : nat) (text : cstring) (encodings : encodings) : outcome cstring :=
  encodeLoop fuel text encodings.

Definition copyEncodings (encodings : encodings) : decodings :=
  fold_left (fun copiedEncodings p => dmap_set (snd p) (fst p) copiedEncodings)
            encodings [].

(** The loop over the bits; the state is ([decodedText], [code]). *)
Fixpoint decodeLoop (copiedEncodings : decodings) (text : cstring)
    (decodedText code : cstring) : cstring * cstring :=
  match text with
  | [] => (decodedText, code)
  | bit :: text =>
      let code := code ++ [bit] in
      match dmap_find code copiedEncodings with
      | Some c => decodeLoop copiedEncodings text (decodedText ++ [c]) []
      | None => decodeLoop copiedEncodings text decodedText code
      end
  end.

(** The state in which the loop of [decode] ends. *)
Definition decodeState (text : cstring) (encodings : encodings) : cstring * cstring :=
  decodeLoop (copyEncodings encodings) text [] [].

Definition decode (text : cstring) (encodings : encodings) : cstring :=
  fst (decodeState text encodings).

(** ** [Dictionary::printSet] of chernikova.galyna/F0/dictionary.cpp

    [std::ostream] is the sequence of characters written to it so far (the
    stream is in good state and its field width is 0, so that [output << s]
    appends the characters of [s]); a [std::set< std::string >] is the list
    of its elements in the order of iteration, and an iterator into it is
    the list of the elements from its position on. *)

Module chernikova.

Definition ostream := cstring.
Definition string_set := list cstring.

(** [for (auto it = set.begin(); it != last; ++it)], where [last] is the
    position of the last element: returns the stream and the position at
    which the loop stops. *)
Fixpoint printLoop (output : ostream) (it : string_set) : ostream * string_set :=
  match it with
  | x :: ((_ :: _) as next) => printLoop (output ++ x ++ str " ") next
  | last => (output, last)
  end.

Definition printSet (output : ostream) (set : string_set) : ostream :=
  match set with
  | [] => output
  | _ :: _ =>
      let (output, last) := printLoop output set in
      match last with
      | x :: _ => output ++ x
      | [] => output
      end
  end.

End chernikova.

(** * Notions of the statements *)

(** Order of [char]. *)
Definition char_le (a b : ascii) : Prop := (char_code a <= char_code b)%Z.

(** Order of the keys of a table. *)
Definition key_le (p q : size_t * ascii) : Prop := fst p <= fst q.

(** [x] stands at the last position of minimum weight of [before ++ x :: after]. *)
Definition last_minimum (before : list Node) (x : Node) (after : list Node) : Prop :=
  Forall (fun y => weight x <= weight y) before /\
  Forall (fun y => weight x < weight y) after.

(** Shape of the trees the builder makes: a node has no child or two. *)
Inductive full : Node -> Prop :=
| full_leaf (p : ascii * size_t) : full (mkNode p None None)
| full_internal (p : ascii * size_t) (l r : Node) :
    full l -> full r -> full (mkNode p (Some l) (Some r)).

(** The weight of every node with two children is the sum of theirs. *)
Inductive additive : Node -> Prop :=
| additive_leaf (p : ascii * size_t) : additive (mkNode p None None)
| additive_internal (c : ascii) (l r : Node) :
    additive l -> additive r ->
    additive (mkNode (c, weight l + weight r) (Some l) (Some r)).

(** Symbols of the leaves, left to right. *)
Fixpoint leaf_symbols (n : Node) : list ascii :=
  match n with
  | mkNode p None None => [fst p]
  | mkNode _ l r =>
      (match l with Some x => leaf_symbols x | None => [] end) ++
      (match r with Some x => leaf_symbols x | None => [] end)
  end.

(** Sum of the weights of the roots of a list, and of the keys of a table. *)
Definition total_weight (ws : list Node) : N :=
  fold_right (fun n acc => weight n + acc) 0 ws.

Definition table_weight (t : multimap) : N :=
  fold_right (fun p acc => fst p + acc) 0 t.

(** Invariant of the merge loop for the weights: every tree is additive and
    the roots weigh [W] together. *)
Definition weight_invariant (W : N) (ws : list Node) : Prop :=
  Forall additive ws /\ total_weight ws = W.

(** Invariant of the merge loop for the shape: every tree is full and the
    leaves carry the symbols [symbols]. *)
Definition shape_invariant (symbols : list ascii) (ws : list Node) : Prop :=
  Forall full ws /\ Permutation (flat_map leaf_symbols ws) symbols.

(** Depth of every leaf below a node that stands at depth [h], left to right. *)
Fixpoint leaf_depths (h : N) (n : Node) : multimap :=
  match n with
  | mkNode p None None => [(h, fst p)]
  | mkNode _ l r =>
      (match l with Some x => leaf_depths (h + 1) x | None => [] end) ++
      (match r with Some x => leaf_depths (h + 1) x | None => [] end)
  end.

(** Length of the longest path from a node down to a leaf. *)
Fixpoint tree_height (n : Node) : N :=
  match n with
  | mkNode _ l r =>
      N.max (match l with Some x => 1 + tree_height x | None => 0 end)
            (match r with Some x => 1 + tree_height x | None => 0 end)
  end.

(** What one step of the traversal does with a node: the children it pushes,
    the table after it, the entry it records. *)
Definition children (n : Node) : list Node :=
  detail.opt_list (left n) ++ detail.opt_list (right n).

Definition record (height : size_t) (table : multimap) (n : Node) : multimap :=
  match left n, right n with
  | None, None => mm_insert (height, symbol n) table
  | _, _ => table
  end.

Definition leaf_entry (height : size_t) (n : Node) : multimap :=
  match left n, right n with
  | None, None => [(height, symbol n)]
  | _, _ => []
  end.

(** What a terminating [replaceSubstring] computes on a one-character
    pattern, and what [encode] computes on a whole table. *)
Definition subst1 (c : ascii) (code : cstring) (x : ascii) : cstring :=
  if char_eqb x c then code else [x].

Definition substitute (table : encodings) (x : ascii) : cstring :=
  match map_find x table with
  | Some code => code
  | None => [x]
  end.

(** Codewords: prefix, strings of '0' and '1'. *)
Definition is_prefix (p s : cstring) : Prop := exists t, s = p ++ t.

(** [a] and [b] agree up to a position where [a] has '0' and [b] has '1'. *)
Definition diverge (a b : cstring) : Prop :=
  exists p x y, a = p ++ "0"%char :: x /\ b = p ++ "1"%char :: y.

Definition binary (code : cstring) : Prop :=
  Forall (fun c => c = "0"%char \/ c = "1"%char) code.

Definition bit (c : ascii) : N := if char_eqb c "1" then 1 else 0.

(** The number a codeword denotes, most significant bit first. *)
Fixpoint val (code : cstring) : N :=
  match code with
  | [] => 0
  | c :: r => bit c * 2 ^ N.of_nat (length r) + val r
  end.

(** Kraft sum of a table of code lengths, scaled by [2 ^ D]. *)
Definition kraft (D : N) (t : multimap) : N :=
  fold_right (fun p acc => 2 ^ (D - fst p) + acc) 0 t.

(** The codewords in the order the assignment loop produces them. *)
Fixpoint codeList (previous : size_t) (code : cstring) (rest : multimap)
    : list (ascii * cstring) :=
  match rest with
  | [] => []
  | currentPair :: rest =>
      let code := detail.increment code
                  ++ repeat "0"%char (N.to_nat (size_sub (fst currentPair) previous)) in
      (snd currentPair, code) :: codeList (fst currentPair) code rest
  end.

(** The table [createEncodingTable] returns for the text "aabbbcc". *)
Definition table_aabbbcc : encodings :=
  [("a"%char, str "11"); ("b"%char, str "0"); ("c"%char, str "10")].

(** ** Notions of the further properties *)

(** Strict order of [char], and the order of the entries of a frequency
    table: by count, then by symbol. *)
Definition char_lt (a b : ascii) : Prop := (char_code a < char_code b)%Z.

Definition entry_lt (p q : size_t * ascii) : Prop :=
  fst p < fst q \/ (fst p = fst q /\ char_lt (snd p) (snd q)).

(** The leaves of a tree, left to right, each as (symbol, weight), and the
    invariant of the merge loop that keeps them. *)
Fixpoint leaves (n : Node) : list (ascii * size_t) :=
  match n with
  | mkNode p None None => [p]
  | mkNode _ l r =>
      (match l with Some x => leaves x | None => [] end) ++
      (match r with Some x => leaves x | None => [] end)
  end.

Definition leaf_invariant (entries : list (ascii * size_t)) (ws : list Node) : Prop :=
  Forall full ws /\ Permutation (flat_map leaves ws) entries.

(** Symbols of the leaves at depth [d] below a node, left to right. *)
Fixpoint leaves_at (d : nat) (n : Node) : list ascii :=
  match d with
  | O => match left n, right n with
         | None, None => [symbol n]
         | _, _ => []
         end
  | S d' => flat_map (leaves_at d') (children n)
  end.

(** The leaves of a list of nodes level by level: for each depth below [D],
    in ascending order, the leaves at that depth from left to right, each
    with its depth counted from [h]. *)
Definition level_table (h : N) (q : list Node) (D : nat) : multimap :=
  flat_map (fun d => map (fun c => (h + N.of_nat d, c)) (flat_map (leaves_at d) q))
           (seq 0 D).

(** Code lengths and their cost. An assignment gives each weight a depth
    (a code length); its cost is the sum of weight times depth. The depths
    satisfy Kraft's inequality when the sum of [2 ^ -d] is at most 1, here
    scaled by a power of two above all depths. *)
Definition assignment := list (N * N).

Definition cost (A : assignment) : N :=
  fold_right (fun p acc => fst p * snd p + acc) 0 A.

Definition ksum (D : N) (depths : list N) : N :=
  fold_right (fun d acc => 2 ^ (D - d) + acc) 0 depths.

Definition kraft_le (depths : list N) : Prop :=
  exists D, Forall (fun d => d <= D) depths /\ ksum D depths <= 2 ^ D.

Definition weight_sum (A : assignment) : N :=
  fold_right (fun p acc => fst p + acc) 0 A.

(** Weight and depth of every leaf below a node that stands at depth [h],
    and the weighted path length of a tree: the cost of its leaves. *)
Fixpoint weight_depths (h : N) (n : Node) : assignment :=
  match n with
  | mkNode p None None => [(snd p, h)]
  | mkNode _ l r =>
      (match l with Some x => weight_depths (h + 1) x | None => [] end) ++
      (match r with Some x => weight_depths (h + 1) x | None => [] end)
  end.

Definition wpl (n : Node) : N := cost (weight_depths 0 n).

Definition forest_wpl (ws : list Node) : N :=
  fold_right (fun n acc => wpl n + acc) 0 ws.

(** Symbol, weight and depth of every leaf below a node at depth [h]. *)
Fixpoint leaf_records (h : N) (n : Node) : list (ascii * N * N) :=
  match n with
  | mkNode p None None => [(fst p, snd p, h)]
  | mkNode _ l r =>
      (match l with Some x => leaf_records (h + 1) x | None => [] end) ++
      (match r with Some x => leaf_records (h + 1) x | None => [] end)
  end.

(** The strings of a list with one space before each of them but the
    first. *)
Definition joined (l : list cstring) : cstring :=
  match l with
  | [] => []
  | x :: rest => x ++ flat_map (fun y => " "%char :: y) rest
  end.

(** The pieces of a string between its spaces (empty pieces included). *)
Fixpoint pieces (s : cstring) : list cstring :=
  match s with
  | [] => [[]]
  | c :: s =>
      if ascii_dec c " "%char then [] :: pieces s
      else match pieces s with
           | w :: ws => (c :: w) :: ws
           | [] => [[c]]
           end
  end.

(** * Properties *)

(** ** Characters *)

Lemma char_eqb_eq (a b : ascii) : char_eqb a b = true <-> a = b.
Proof. apply Ascii.eqb_eq. Qed.

Lemma char_eqb_neq (a b : ascii) : char_eqb a b = false <-> a <> b.
Proof. apply Ascii.eqb_neq. Qed.

Lemma char_eqb_refl (a : ascii) : char_eqb a a = true.
Proof. apply Ascii.eqb_refl. Qed.

Lemma char_code_inj (a b : ascii) : char_code a = char_code b -> a = b.
Proof.
  unfold char_code. intros H.
  pose proof (N_ascii_bounded a) as Ha. pose proof (N_ascii_bounded b) as Hb.
  rewrite <- (ascii_N_embedding a), <- (ascii_N_embedding b). f_equal.
  destruct (Z.ltb_spec (Z.of_N (N_of_ascii a)) 128),
           (Z.ltb_spec (Z.of_N (N_of_ascii b)) 128); lia.
Qed.

Lemma char_ltb_irrefl (a : ascii) : char_ltb a a = false.
Proof. unfold char_ltb. apply Z.ltb_irrefl. Qed.

Lemma char_ltb_trichotomy (a b : ascii) :
  char_ltb a b = false -> char_ltb b a = false -> a = b.
Proof.
  unfold char_ltb. intros H1 H2. apply char_code_inj.
  apply Z.ltb_ge in H1, H2. lia.
Qed.

Lemma char_ltb_asym (a b : ascii) : char_ltb a b = true -> char_ltb b a = false.
Proof. unfold char_ltb. intros H. apply Z.ltb_lt in H. apply Z.ltb_ge. lia. Qed.

Lemma char_ltb_trans (a b c : ascii) :
  char_ltb a b = true -> char_ltb b c = true -> char_ltb a c = true.
Proof. unfold char_ltb. rewrite !Z.ltb_lt. lia. Qed.

Lemma string_eqb_eq (a b : cstring) : string_eqb a b = true <-> a = b.
Proof. unfold string_eqb. destruct (list_eq_dec ascii_dec a b); split; congruence. Qed.

(** ** The decoder *)

Section Decoder.

Variable copiedEncodings : decodings.

(** Either some prefix of the input brings the loop to an empty buffer and
    the rest of the input is what the buffer holds at the end, or nothing ever
    matched and the buffer has swallowed the whole input. *)
Lemma decodeLoop_split (text : cstring) :
  forall decodedText code,
    (exists consumed rest,
        text = consumed ++ rest /\
        decodeLoop copiedEncodings consumed decodedText code
          = (fst (decodeLoop copiedEncodings text decodedText code), []) /\
        snd (decodeLoop copiedEncodings text decodedText code) = rest) \/
    (decodeLoop copiedEncodings text decodedText code = (decodedText, code ++ text)).
Proof.
  induction text as [|bit text IH]; intros decodedText code.
  - right. simpl. now rewrite app_nil_r.
  - simpl. destruct (dmap_find (code ++ [bit]) copiedEncodings) as [c|] eqn:Hfind.
    + left. destruct (IH (decodedText ++ [c]) []) as [(consumed & rest & -> & H1 & H2)|H].
      * exists (bit :: consumed), rest. simpl. now rewrite Hfind.
      * exists [bit], text. simpl. rewrite Hfind, H. now simpl.
    + destruct (IH decodedText (code ++ [bit])) as [(consumed & rest & -> & H1 & H2)|H].
      * left. exists (bit :: consumed), rest. simpl. now rewrite Hfind.
      * right. rewrite H. now rewrite <- app_assoc.
Qed.

(** The buffer left at the end is empty or matches no codeword. *)
Lemma decodeLoop_buffer_unmatched (text : cstring) :
  forall decodedText code,
    (code = [] \/ dmap_find code copiedEncodings = None) ->
    snd (decodeLoop copiedEncodings text decodedText code) = [] \/
    dmap_find (snd (decodeLoop copiedEncodings text decodedText code)) copiedEncodings = None.
Proof.
  induction text as [|bit text IH]; intros decodedText code H; simpl.
  - exact H.
  - destruct (dmap_find (code ++ [bit]) copiedEncodings) eqn:Hfind; apply IH; auto.
Qed.

End Decoder.

(** C4, as the code has it. [decode] has no failure path: whatever the table
    and the bits, it returns the symbols decoded up to the last complete
    codeword, and the bits left in the buffer at the end of the input (which
    match no codeword) are dropped without a report. *)
Theorem decode_drops_unmatched_remainder (bits : cstring) (table : encodings) :
  exists consumed,
    bits = consumed ++ snd (decodeState bits table) /\
    decodeState consumed table = (decode bits table, []) /\
    decode consumed table = decode bits table /\
    (snd (decodeState bits table) = [] \/
     dmap_find (snd (decodeState bits table)) (copyEncodings table) = None).
Proof.
  unfold decode, decodeState.
  pose proof (decodeLoop_buffer_unmatched (copyEncodings table) bits [] [] (or_introl eq_refl))
    as Hbuf.
  destruct (decodeLoop_split (copyEncodings table) bits [] [])
    as [(consumed & rest & Hbits & H1 & H2)|H].
  - exists consumed. rewrite H2, H1. simpl. repeat split; auto.
    now rewrite <- H2.
  - exists []. rewrite H in *. simpl in *. repeat split; auto.
Qed.

Lemma decode_truncated_returns :
  createEncodingTable (str "aabbbcc") = Returns table_aabbbcc /\
  encode 3 (str "abc") table_aabbbcc = Returns (str "11010") /\
  decodeState (str "1101") table_aabbbcc = (str "ab", str "1") /\
  dmap_find (str "1") (copyEncodings table_aabbbcc) = None /\
  decode (str "1101") table_aabbbcc = str "ab".
Proof. vm_compute. repeat split. Qed.

(** ** Empty inputs *)

(** C8, as the code has it. [decode] of the empty bit sequence is the empty
    symbol sequence for every table. [encode] of the empty text is the empty
    sequence for the empty table only: with any entry in the table the guard
    of [replaceSubstring] rejects the empty string with
    [std::invalid_argument]. *)
Theorem encode_decode_empty (fuel : nat) (entry : ascii * cstring) (table : encodings) :
  decode [] table = [] /\
  encode fuel [] [] = Returns [] /\
  encode fuel [] (entry :: table) = InvalidArgument.
Proof.
  repeat split. destruct entry as [c code]. reflexivity.
Qed.

Lemma encode_empty_text_throws :
  encode 1 [] table_aabbbcc = InvalidArgument /\
  encode 1 [] table_aabbbcc <> Returns [].
Proof. split; [reflexivity | discriminate]. Qed.

(** C2. On the empty text the frequency table is empty, the merge loop is
    not entered and [weights.back()] is applied to an empty list: undefined
    behaviour, where an explicit failure is expected. *)
Theorem createEncodingTable_empty_text :
  detail.createFrequencyTable [] = [] /\
  detail.createHuffmanTree [] = UndefinedBehaviour /\
  createEncodingTable [] = UndefinedBehaviour.
Proof. repeat split. Qed.

(** The text "a1": the digit gets the codeword "1", and replacing "1" by "1"
    with the search resumed at the position of the replacement finds the
    same character again, whatever the number of iterations allowed. *)
Lemma replaceLoop_repeats (fuel : nat) :
  detail.replaceLoop fuel (str "a1") (str "1") (str "1") (Some 1%nat) = OutOfFuel.
Proof. induction fuel as [|fuel IH]; [reflexivity|exact IH]. Qed.

Lemma encode_loops_on_digit (fuel : nat) :
  createEncodingTable (str "a1") = Returns [("1"%char, str "1"); ("a"%char, str "0")] /\
  encode fuel (str "a1") [("1"%char, str "1"); ("a"%char, str "0")] = OutOfFuel.
Proof.
  split; [reflexivity|].
  unfold encode, encodeLoop, detail.replaceSubstring.
  change (detail.string_find (str "a1") [ "1"%char ] 0) with (Some 1%nat).
  cbn [detail.is_empty orb str list_ascii_of_string].
  change (detail.replaceLoop fuel (str "a1") (str "1") (str "1") (Some 1%nat))
    with (detail.replaceLoop fuel ["a"%char; "1"%char] ["1"%char] ["1"%char] (Some 1%nat)).
  now rewrite replaceLoop_repeats.
Qed.

(** C1. The text "  1" (two spaces and the digit one): the table gives the
    space the codeword "1" and the digit the codeword "0"; [encode] replaces
    the spaces first, then every '1' of the intermediate string, including
    the two it has just written; decoding gives "111". *)
Theorem roundtrip_fails_on_digit_symbol :
  let table := [(" "%char, str "1"); ("1"%char, str "0")] in
  createEncodingTable (str "  1") = Returns table /\
  encode 3 (str "  1") table = Returns (str "000") /\
  decode (str "000") table = str "111" /\
  decode (str "000") table <> str "  1".
Proof. vm_compute. repeat split. discriminate. Qed.

(** ** Extraction of the minimum *)

Section ExtractMinimum.

Import detail.

Lemma min_element_from_spec (l : list Node) :
  forall before x after,
    last_minimum before x after ->
    exists before' x' after',
      before ++ x :: after ++ l = before' ++ x' :: after' /\
      min_element_from isMinWeight (length before) x (length before + 1 + length after) l
        = length before' /\
      last_minimum before' x' after'.
Proof.
  induction l as [|y l IH]; intros before x after [Hb Ha]; simpl.
  - exists before, x, after. rewrite app_nil_r. repeat split; assumption.
  - unfold isMinWeight at 1. destruct (N.leb_spec (weight y) (weight x)) as [Hle|Hlt].
    + destruct (IH (before ++ x :: after) y []) as (b' & x' & a' & Heq & Hmin & Hlast).
      { split; [|constructor]. apply Forall_app. split.
        - eapply Forall_impl; [|exact Hb]. simpl. intros; lia.
        - constructor; [exact Hle|].
          eapply Forall_impl; [|exact Ha]. simpl. intros; lia. }
      exists b', x', a'. split; [|split; [|exact Hlast]].
      * rewrite <- Heq. simpl. now rewrite <- app_assoc.
      * rewrite <- Hmin. rewrite length_app. simpl.
        f_equal; lia.
    + destruct (IH before x (after ++ [y])) as (b' & x' & a' & Heq & Hmin & Hlast).
      { split; [exact Hb|]. apply Forall_app. split; [exact Ha|].
        constructor; [exact Hlt|constructor]. }
      exists b', x', a'. split; [|split; [|exact Hlast]].
      * rewrite <- Heq. now rewrite <- app_assoc.
      * rewrite <- Hmin. rewrite length_app. simpl. f_equal; lia.
Qed.

Lemma extractMinimum_spec (nodes : list Node) :
  nodes <> [] ->
  exists before x after,
    nodes = before ++ x :: after /\
    last_minimum before x after /\
    extractMinimum nodes = (Some x, before ++ after).
Proof.
  destruct nodes as [|n nodes]; [congruence|]. intros _.
  destruct (min_element_from_spec nodes [] n []) as (b & x & a & Heq & Hmin & Hlast).
  { split; constructor. }
  simpl in Heq, Hmin. exists b, x, a. split; [exact Heq|]. split; [exact Hlast|].
  unfold extractMinimum, min_element. rewrite Hmin, Heq.
  rewrite nth_error_app2, Nat.sub_diag by lia. simpl.
  rewrite firstn_app, Nat.sub_diag, firstn_all. simpl. rewrite app_nil_r.
  change (match b ++ x :: a with [] => [] | _ :: t => skipn (length b) t end)
    with (skipn (S (length b)) (b ++ x :: a)).
  rewrite skipn_app, skipn_all2 by lia.
  replace (S (length b) - length b)%nat with 1%nat by lia. reflexivity.
Qed.

End ExtractMinimum.

(** C6, as the code has it. In an iteration of the merge loop each of the two
    extractions removes and returns a node of minimum weight among the
    remaining nodes; the comparator is [<=], so among nodes tied for the
    minimum the scan settles on the one at the LAST position; the first
    extracted node becomes the left child and the second the right child of
    the node appended at the end, the other nodes keeping their order. *)
Theorem mergeStep_extracts_last_minimum (weights : list Node) :
  (1 < length weights)%nat ->
  exists before1 l after1 before2 r after2,
    weights = before1 ++ l :: after1 /\
    last_minimum before1 l after1 /\
    detail.extractMinimum weights = (Some l, before1 ++ after1) /\
    before1 ++ after1 = before2 ++ r :: after2 /\
    last_minimum before2 r after2 /\
    detail.extractMinimum (before1 ++ after1) = (Some r, before2 ++ after2) /\
    detail.mergeStep weights
      = Returns ((before2 ++ after2)
                 ++ [makeInternal " " (size_add (weight l) (weight r)) l r]).
Proof.
  intros Hsize.
  destruct (extractMinimum_spec weights) as (b1 & l & a1 & Heq1 & Hlast1 & Hex1).
  { intros ->. simpl in Hsize. lia. }
  destruct (extractMinimum_spec (b1 ++ a1)) as (b2 & r & a2 & Heq2 & Hlast2 & Hex2).
  { intros H. rewrite Heq1, length_app in Hsize. simpl in Hsize.
    apply (f_equal (@length Node)) in H. rewrite length_app in H. simpl in H. lia. }
  exists b1, l, a1, b2, r, a2. repeat split; try assumption; try apply Hlast1; try apply Hlast2.
  unfold detail.mergeStep. rewrite Hex1, Hex2. reflexivity.
Qed.

Lemma mergeStep_extracts_last_minimum_witness :
  exists before1 l after1 before2 r after2,
    [makeLeaf "a" 1; makeLeaf "b" 1; makeLeaf "c" 2] = before1 ++ l :: after1 /\
    last_minimum before1 l after1 /\
    detail.extractMinimum [makeLeaf "a" 1; makeLeaf "b" 1; makeLeaf "c" 2]
      = (Some l, before1 ++ after1) /\
    before1 ++ after1 = before2 ++ r :: after2 /\
    last_minimum before2 r after2 /\
    detail.extractMinimum (before1 ++ after1) = (Some r, before2 ++ after2) /\
    detail.mergeStep [makeLeaf "a" 1; makeLeaf "b" 1; makeLeaf "c" 2]
      = Returns ((before2 ++ after2)
                 ++ [makeInternal " " (size_add (weight l) (weight r)) l r]).
Proof.
  apply (mergeStep_extracts_last_minimum [makeLeaf "a" 1; makeLeaf "b" 1; makeLeaf "c" 2]).
  simpl. lia.
Defined.

(** Two leaves of weight 1: the earliest tied node is 'a', the code extracts
    'b' first and makes it the left child. *)
Lemma extractMinimum_tie_takes_last :
  detail.extractMinimum [makeLeaf "a" 1; makeLeaf "b" 1; makeLeaf "c" 2]
    = (Some (makeLeaf "b" 1), [makeLeaf "a" 1; makeLeaf "c" 2]) /\
  detail.extractMinimum [makeLeaf "a" 1; makeLeaf "b" 1; makeLeaf "c" 2]
    <> (Some (makeLeaf "a" 1), [makeLeaf "b" 1; makeLeaf "c" 2]) /\
  detail.mergeStep [makeLeaf "a" 1; makeLeaf "b" 1; makeLeaf "c" 2]
    = Returns [makeLeaf "c" 2; makeInternal " " 2 (makeLeaf "b" 1) (makeLeaf "a" 1)].
Proof. vm_compute. repeat split. discriminate. Qed.

(** ** The encoder *)

Lemma is_empty_false {A : Type} (l : list A) : l <> [] -> detail.is_empty l = false.
Proof. destruct l; [congruence|reflexivity]. Qed.

Section ReplaceSubstring.

Import detail.

Variable c : ascii.
Variable code : cstring.
Hypothesis code_free : ~ In c code.

Lemma find_sub_absent (s : cstring) : ~ In c s -> find_sub [c] s = None.
Proof.
  induction s as [|x s IH]; intros H; simpl; [reflexivity|].
  destruct (char_eqb c x) eqn:E.
  - apply char_eqb_eq in E. subst. exfalso. apply H. now left.
  - simpl. rewrite IH; [reflexivity|]. intros Hin. apply H. now right.
Qed.

Lemma find_sub_first (a b : cstring) :
  ~ In c a -> find_sub [c] (a ++ c :: b) = Some (length a).
Proof.
  induction a as [|x a IH]; intros H; simpl.
  - now rewrite char_eqb_refl.
  - destruct (char_eqb c x) eqn:E.
    + apply char_eqb_eq in E. subst. exfalso. apply H. now left.
    + simpl. rewrite IH; [reflexivity|]. intros Hin. apply H. now right.
Qed.

Lemma first_occurrence (s : cstring) :
  In c s -> exists a b, s = a ++ c :: b /\ ~ In c a.
Proof.
  induction s as [|x s IH]; intros H; [contradiction|].
  destruct (ascii_dec x c) as [->|Hne].
  - exists [], s. split; [reflexivity|]. intros [].
  - destruct H as [H|H]; [contradiction|].
    destruct (IH H) as (a & b & -> & Ha).
    exists (x :: a), b. split; [reflexivity|]. intros [E|E]; [contradiction|auto].
Qed.

Lemma string_find_from (done todo : cstring) :
  string_find (done ++ todo) [c] (length done)
  = option_map (Nat.add (length done)) (find_sub [c] todo).
Proof.
  unfold string_find.
  destruct (Nat.ltb_spec (length (done ++ todo)) (length done)) as [H|H].
  - rewrite length_app in H. lia.
  - rewrite skipn_app, skipn_all, Nat.sub_diag. reflexivity.
Qed.

Lemma flat_map_subst1_free (s : cstring) : ~ In c s -> flat_map (subst1 c code) s = s.
Proof.
  induction s as [|x s IH]; intros H; simpl; [reflexivity|].
  unfold subst1 at 1. destruct (char_eqb x c) eqn:E.
  - apply char_eqb_eq in E. subst. exfalso. apply H. now left.
  - simpl. rewrite IH; [reflexivity|]. intros Hin. apply H. now right.
Qed.

(** With the replacement free of the pattern, the loop performs one
    iteration per occurrence and rewrites each of them. *)
Lemma replaceLoop_spec (n : nat) :
  forall todo done fuel,
    count_occ ascii_dec todo c = n ->
    (n <= fuel)%nat ->
    replaceLoop fuel (done ++ todo) [c] code (string_find (done ++ todo) [c] (length done))
    = Returns (done ++ flat_map (subst1 c code) todo).
Proof.
  induction n as [|n IH]; intros todo done fuel Hcount Hfuel.
  - apply count_occ_not_In in Hcount.
    rewrite string_find_from, find_sub_absent by assumption.
    rewrite flat_map_subst1_free by assumption. now destruct fuel.
  - assert (Hin : In c todo) by (apply (count_occ_In ascii_dec); lia).
    destruct (first_occurrence todo Hin) as (a & b & -> & Ha).
    rewrite string_find_from, find_sub_first by assumption.
    destruct fuel as [|fuel]; [lia|]. simpl.
    assert (Hrep : string_replace (done ++ a ++ c :: b) (length done + length a) 1 code
                   = (done ++ a) ++ code ++ b).
    { unfold string_replace. rewrite (app_assoc done a (c :: b)), <- length_app.
      rewrite firstn_app, Nat.sub_diag, firstn_all. simpl. rewrite app_nil_r.
      rewrite skipn_app, skipn_all2 by lia.
      replace (length (done ++ a) + 1 - length (done ++ a))%nat with 1%nat by lia.
      reflexivity. }
    rewrite Hrep. rewrite <- length_app.
    rewrite count_occ_app in Hcount. simpl in Hcount.
    destruct (ascii_dec c c) as [_|Hcc]; [|congruence].
    rewrite (IH (code ++ b) (done ++ a) fuel).
    + f_equal. rewrite !flat_map_app. simpl.
      unfold subst1 at 4. rewrite char_eqb_refl.
      rewrite (flat_map_subst1_free code), (flat_map_subst1_free a) by assumption.
      now rewrite <- !app_assoc.
    + rewrite count_occ_app.
      rewrite (proj1 (count_occ_not_In ascii_dec code c) code_free).
      rewrite (proj1 (count_occ_not_In ascii_dec a c) Ha) in Hcount. simpl in *. lia.
    + lia.
Qed.

Lemma replaceSubstring_spec (fuel : nat) (s : cstring) :
  s <> [] -> code <> [] ->
  (count_occ ascii_dec s c <= fuel)%nat ->
  replaceSubstring fuel s [c] code = Returns (flat_map (subst1 c code) s).
Proof.
  intros Hs Hcode Hfuel. unfold replaceSubstring.
  rewrite (is_empty_false s Hs), (is_empty_false code Hcode). cbn [is_empty orb].
  apply (replaceLoop_spec (count_occ ascii_dec s c) s [] fuel eq_refl Hfuel).
Qed.

End ReplaceSubstring.

Lemma map_find_absent (k : ascii) (table : encodings) :
  ~ In k (map fst table) -> map_find k table = None.
Proof.
  induction table as [|[k' v] table IH]; intros H; simpl; [reflexivity|].
  destruct (char_eqb k k') eqn:E.
  - apply char_eqb_eq in E. subst. exfalso. apply H. now left.
  - apply IH. intros Hin. apply H. now right.
Qed.

Lemma flat_map_substitute_free (table : encodings) (s : cstring) :
  (forall k, In k (map fst table) -> ~ In k s) ->
  flat_map (substitute table) s = s.
Proof.
  induction s as [|x s IH]; intros H; simpl; [reflexivity|].
  unfold substitute at 1. rewrite map_find_absent.
  - simpl. rewrite IH; [reflexivity|]. intros k Hk Hin. apply (H k Hk). now right.
  - intros Hk. apply (H x Hk). now left.
Qed.

Lemma count_occ_subst1_le (c : ascii) (code s : cstring) (k : ascii) :
  ~ In k code ->
  (count_occ ascii_dec (flat_map (subst1 c code) s) k <= count_occ ascii_dec s k)%nat.
Proof.
  intros Hk. induction s as [|x s IH]; simpl; [lia|].
  rewrite count_occ_app. unfold subst1 at 1. destruct (char_eqb x c).
  - rewrite (proj1 (count_occ_not_In ascii_dec code k) Hk).
    destruct (ascii_dec x k); lia.
  - simpl. destruct (ascii_dec x k); lia.
Qed.

Lemma flat_map_subst1_nonempty (c : ascii) (code s : cstring) :
  s <> [] -> code <> [] -> flat_map (subst1 c code) s <> [].
Proof.
  destruct s as [|x s]; [congruence|]. intros _ Hcode. simpl. unfold subst1 at 1.
  destruct (char_eqb x c); [|discriminate].
  destruct code; [congruence|discriminate].
Qed.

(** The replacements of [encode], one table entry after the other, amount to
    one simultaneous substitution as long as no codeword contains a symbol
    of the table. *)
Lemma encodeLoop_spec (fuel : nat) (table : encodings) :
  forall s,
    s <> [] ->
    (forall c code, In (c, code) table -> code <> []) ->
    (forall c code k, In (c, code) table -> In k (map fst table) -> ~ In k code) ->
    (forall k, In k (map fst table) -> (count_occ ascii_dec s k <= fuel)%nat) ->
    encodeLoop fuel s table = Returns (flat_map (substitute table) s).
Proof.
  induction table as [|[c code] table IH]; intros s Hs Hne Hfree Hfuel; simpl.
  - f_equal. symmetry. apply flat_map_substitute_free. intros k [].
  - assert (Hc : ~ In c code) by (apply (Hfree c code c); simpl; auto).
    assert (Hcode : code <> []) by (apply (Hne c code); simpl; auto).
    rewrite (replaceSubstring_spec c code Hc fuel s Hs Hcode)
      by (apply Hfuel; simpl; auto).
    simpl. rewrite IH.
    + f_equal. clear Hs Hfuel. induction s as [|x s IHs]; [reflexivity|].
      simpl. rewrite flat_map_app, IHs. f_equal.
      unfold subst1, substitute. simpl. destruct (char_eqb x c).
      * apply flat_map_substitute_free. intros k Hk.
        apply (Hfree c code k); simpl; auto.
      * simpl. now rewrite app_nil_r.
    + now apply flat_map_subst1_nonempty.
    + intros c' code' Hin. apply (Hne c' code'). now right.
    + intros c' code' k Hin Hk. apply (Hfree c' code' k); simpl; auto.
    + intros k Hk. etransitivity.
      * apply count_occ_subst1_le. apply (Hfree c code k); simpl; auto.
      * apply Hfuel. simpl. auto.
Qed.

(** C7, as the code has it. [encode] has no check for symbols without a
    codeword: for a non-empty text and a table whose codewords are non-empty
    and contain no symbol of the table, it returns (given one iteration of
    budget per character of the text) the text in which every symbol of the
    table is replaced by its codeword and every other symbol is left in
    place. *)
Theorem encode_keeps_unknown_symbols (fuel : nat) (text : cstring) (table : encodings) :
  text <> [] ->
  (forall c code, In (c, code) table -> code <> []) ->
  (forall c code k, In (c, code) table -> In k (map fst table) -> ~ In k code) ->
  (length text <= fuel)%nat ->
  encode fuel text table = Returns (flat_map (substitute table) text) /\
  (forall c, In c text -> map_find c table = None ->
             In c (flat_map (substitute table) text)).
Proof.
  intros Htext Hne Hfree Hfuel. split.
  - apply encodeLoop_spec; try assumption.
    intros k _. etransitivity; [apply count_occ_bound|exact Hfuel].
  - intros c Hin Hfind. apply in_flat_map. exists c. split; [exact Hin|].
    unfold substitute. rewrite Hfind. now left.
Qed.

Lemma encode_keeps_unknown_symbols_witness :
  encode 2 (str "ab") [("a"%char, str "0")]
    = Returns (flat_map (substitute [("a"%char, str "0")]) (str "ab")) /\
  (forall c, In c (str "ab") -> map_find c [("a"%char, str "0")] = None ->
             In c (flat_map (substitute [("a"%char, str "0")]) (str "ab"))).
Proof.
  apply (encode_keeps_unknown_symbols 2 (str "ab") [("a"%char, str "0")]).
  - discriminate.
  - intros c code [E|[]]. injection E as <- <-. discriminate.
  - intros c code k [E|[]] [<-|[]]. injection E as <- <-. simpl.
    intros [E|[]]. discriminate.
  - simpl. lia.
Defined.

(** The symbol 'b' has no codeword in the table; [encode] returns "0b". *)
Lemma encode_unknown_symbol_returns :
  In "b"%char (str "ab") /\
  map_find "b"%char [("a"%char, str "0")] = None /\
  encode 2 (str "ab") [("a"%char, str "0")] = Returns (str "0b").
Proof. vm_compute. repeat split. right. now left. Qed.

(** ** The frequency table *)

Section FrequencyTable.

Import detail.

Lemma char_ltb_lt (a b : ascii) : char_ltb a b = true <-> (char_code a < char_code b)%Z.
Proof. unfold char_ltb. apply Z.ltb_lt. Qed.

Lemma char_ltb_ge (a b : ascii) : char_ltb a b = false <-> char_le b a.
Proof. unfold char_ltb, char_le. apply Z.ltb_ge. Qed.

Lemma sort_insert_perm (c : ascii) (l : cstring) : Permutation (sort_insert c l) (c :: l).
Proof.
  induction l as [|x l IH]; simpl; [reflexivity|].
  destruct (char_ltb x c); [|reflexivity].
  rewrite IH. apply perm_swap.
Qed.

Lemma sort_perm (l : cstring) : Permutation (sort l) l.
Proof.
  induction l as [|x l IH]; simpl; [reflexivity|].
  rewrite sort_insert_perm. now constructor.
Qed.

Lemma sort_insert_sorted (c : ascii) (l : cstring) :
  StronglySorted char_le l -> StronglySorted char_le (sort_insert c l).
Proof.
  induction 1 as [|x l Hs IH Hall]; simpl.
  - repeat constructor.
  - destruct (char_ltb x c) eqn:E.
    + constructor; [exact IH|].
      apply (Permutation_Forall (Permutation_sym (sort_insert_perm c l))).
      constructor; [|exact Hall].
      apply char_ltb_lt in E. unfold char_le. lia.
    + apply char_ltb_ge in E. constructor; [now constructor|].
      constructor; [exact E|].
      eapply Forall_impl; [|exact Hall]. unfold char_le in *. simpl. intros; lia.
Qed.

Lemma sort_sorted (l : cstring) : StronglySorted char_le (sort l).
Proof.
  induction l as [|x l IH]; simpl; [constructor|]. now apply sort_insert_sorted.
Qed.

(** Two ascending rearrangements of the same characters are the same string. *)
Lemma sorted_perm_eq (l1 : cstring) :
  forall l2, StronglySorted char_le l1 -> StronglySorted char_le l2 ->
             Permutation l1 l2 -> l1 = l2.
Proof.
  induction l1 as [|x l1 IH]; intros l2 H1 H2 Hp.
  - apply Permutation_nil in Hp. now subst.
  - destruct l2 as [|y l2]; [apply Permutation_sym, Permutation_nil in Hp; discriminate|].
    inversion H1 as [|? ? H1s H1a]; subst. inversion H2 as [|? ? H2s H2a]; subst.
    assert (x = y) as ->.
    { apply char_code_inj.
      assert (Hy : In y (x :: l1)) by (apply (Permutation_in y (Permutation_sym Hp)); now left).
      assert (Hx : In x (y :: l2)) by (apply (Permutation_in x Hp); now left).
      rewrite Forall_forall in H1a, H2a. unfold char_le in *.
      destruct Hy as [->|Hy]; [reflexivity|]. destruct Hx as [->|Hx]; [reflexivity|].
      specialize (H1a y Hy). specialize (H2a x Hx). lia. }
    f_equal. apply IH; try assumption. now apply Permutation_cons_inv in Hp.
Qed.

Lemma sort_permutation (s s' : cstring) : Permutation s s' -> sort s = sort s'.
Proof.
  intros Hp. apply sorted_perm_eq; try apply sort_sorted.
  rewrite !sort_perm. exact Hp.
Qed.

Lemma unique_copy_In (l : cstring) (c : ascii) : In c (unique_copy l) <-> In c l.
Proof.
  induction l as [|x l IH]; [reflexivity|].
  destruct l as [|y l]; [reflexivity|].
  change (unique_copy (x :: y :: l))
    with (if char_eqb x y then unique_copy (y :: l) else x :: unique_copy (y :: l)).
  destruct (char_eqb x y) eqn:E.
  - apply char_eqb_eq in E. subst. rewrite IH. simpl. tauto.
  - simpl in *. rewrite IH. tauto.
Qed.

Lemma unique_copy_NoDup (l : cstring) : StronglySorted char_le l -> NoDup (unique_copy l).
Proof.
  induction 1 as [|x l Hs IH Hall]; [constructor|].
  destruct l as [|y l]; [repeat constructor; intros []|].
  change (unique_copy (x :: y :: l))
    with (if char_eqb x y then unique_copy (y :: l) else x :: unique_copy (y :: l)).
  destruct (char_eqb x y) eqn:E; [exact IH|].
  constructor; [|exact IH].
  rewrite unique_copy_In. intros Hin.
  apply char_eqb_neq in E.
  inversion Hs as [|? ? _ Hy]; subst.
  inversion Hall as [|? ? Hxy _]; subst.
  assert (Hlt : (char_code x < char_code y)%Z).
  { unfold char_le in Hxy. assert (char_code x <> char_code y)
      by (intros Heq; apply E, char_code_inj, Heq). lia. }
  destruct Hin as [->|Hin]; [lia|].
  rewrite Forall_forall in Hy. specialize (Hy x Hin). unfold char_le in Hy. lia.
Qed.

Lemma mm_insert_perm (p : size_t * ascii) (m : multimap) : Permutation (mm_insert p m) (p :: m).
Proof.
  induction m as [|q m IH]; simpl; [reflexivity|].
  destruct (fst p <? fst q); [reflexivity|].
  rewrite IH. apply perm_swap.
Qed.

(** The table holds one entry per distinct character of the text. *)
Lemma fold_mm_insert_perm (f : ascii -> size_t * ascii) (l : cstring) :
  forall acc,
    Permutation (fold_left (fun table c => mm_insert (f c) table) l acc) (map f l ++ acc).
Proof.
  induction l as [|x l IH]; intros acc; simpl; [reflexivity|].
  rewrite IH, mm_insert_perm. now rewrite Permutation_middle.
Qed.

Lemma createFrequencyTable_perm (text : cstring) :
  Permutation (createFrequencyTable text)
              (map (fun c => (count (sort text) c, c)) (unique_copy (sort text))).
Proof.
  unfold createFrequencyTable. rewrite fold_mm_insert_perm. now rewrite app_nil_r.
Qed.

End FrequencyTable.

(** C9. The frequency table of a text and of any rearrangement of it are the
    same table: same entries in the same order. *)
Theorem createFrequencyTable_permutation (s s' : cstring) :
  Permutation s s' ->
  detail.createFrequencyTable s = detail.createFrequencyTable s'.
Proof.
  intros Hp. unfold detail.createFrequencyTable.
  now rewrite (sort_permutation s s' Hp).
Qed.

Lemma createFrequencyTable_permutation_witness :
  Permutation (str "aba") (str "baa") /\
  detail.createFrequencyTable (str "aba") = detail.createFrequencyTable (str "baa").
Proof.
  assert (H : Permutation (str "aba") (str "baa")) by apply perm_swap.
  split; [exact H|].
  apply (createFrequencyTable_permutation (str "aba") (str "baa") H).
Defined.

(** ** The tree builder *)

Section TreeBuilder.

Import detail.

Lemma mergeStep_perm (weights : list Node) :
  (1 < length weights)%nat ->
  exists l r rest,
    mergeStep weights
      = Returns (rest ++ [makeInternal " " (size_add (weight l) (weight r)) l r]) /\
    Permutation weights (l :: r :: rest).
Proof.
  intros Hsize.
  destruct (extractMinimum_spec weights) as (b1 & l & a1 & Heq1 & _ & Hex1).
  { intros ->. simpl in Hsize. lia. }
  destruct (extractMinimum_spec (b1 ++ a1)) as (b2 & r & a2 & Heq2 & _ & Hex2).
  { intros H. rewrite Heq1, length_app in Hsize. simpl in Hsize.
    apply (f_equal (@length Node)) in H. rewrite length_app in H. simpl in H. lia. }
  exists l, r, (b2 ++ a2). split.
  - unfold mergeStep. rewrite Hex1, Hex2. reflexivity.
  - rewrite Heq1. rewrite <- Permutation_middle. constructor.
    rewrite Heq2. now rewrite <- Permutation_middle.
Qed.

(** The loop ends with one node and keeps every property of the working list
    that a merge keeps and that does not depend on the order of the list. *)
Lemma mergeLoop_invariant (Inv : list Node -> Prop) :
  (forall l r rest,
      Inv (l :: r :: rest) ->
      Inv (rest ++ [makeInternal " " (size_add (weight l) (weight r)) l r])) ->
  (forall ws ws', Permutation ws ws' -> Inv ws -> Inv ws') ->
  forall weights,
    weights <> [] -> Inv weights ->
    exists root, mergeLoop weights = Returns [root] /\ Inv [root].
Proof.
  intros Hmerge Hperm weights.
  funelim (mergeLoop weights); intros Hne Hinv.
  all: try match goal with
           | E : (1 <? length ?w)%nat = true |- _ =>
               pose proof (proj1 (Nat.ltb_lt _ _) E) as Hlt;
               destruct (mergeStep_perm w Hlt) as (l & r & rest & Hms & Hp)
           end.
  all: try congruence.
  - match goal with
    | E : (1 <? length ?w)%nat = false |- _ =>
        pose proof (proj1 (Nat.ltb_ge _ _) E) as Hge
    end.
    destruct weights as [|root [|x weights]]; [congruence| |simpl in Hge; lia].
    exists root. split; [reflexivity|exact Hinv].
  - assert (Hm : merged = rest ++ [makeInternal " " (size_add (weight l) (weight r)) l r])
      by congruence.
    match goal with
    | IH : forall _ : list Node -> Prop, _ |- _ => apply IH; try assumption
    end.
    + rewrite Hm. destruct rest; discriminate.
    + rewrite Hm. apply Hmerge. eapply Hperm; eassumption.
Qed.

Lemma createHuffmanTree_invariant (Inv : list Node -> Prop) (frequencyTable : multimap) :
  (forall l r rest,
      Inv (l :: r :: rest) ->
      Inv (rest ++ [makeInternal " " (size_add (weight l) (weight r)) l r])) ->
  (forall ws ws', Permutation ws ws' -> Inv ws -> Inv ws') ->
  frequencyTable <> [] ->
  Inv (map (fun p => makeLeaf (snd p) (fst p)) frequencyTable) ->
  exists root, createHuffmanTree frequencyTable = Returns root /\ Inv [root].
Proof.
  intros Hstep Hperm Hne Hinv. unfold createHuffmanTree.
  destruct (mergeLoop_invariant Inv Hstep Hperm
              (map (fun p => makeLeaf (snd p) (fst p)) frequencyTable))
    as (root & Hloop & Hroot).
  - destruct frequencyTable; [congruence|discriminate].
  - exact Hinv.
  - exists root. rewrite Hloop. split; [reflexivity|exact Hroot].
Qed.

End TreeBuilder.

(** ** Weights *)

Section Weights.

Import detail.

Lemma table_weight_perm (t t' : multimap) :
  Permutation t t' -> table_weight t = table_weight t'.
Proof. induction 1; simpl; lia. Qed.

Lemma total_weight_perm (ws ws' : list Node) :
  Permutation ws ws' -> total_weight ws = total_weight ws'.
Proof. induction 1; simpl; lia. Qed.

Lemma total_weight_app (ws ws' : list Node) :
  total_weight (ws ++ ws') = total_weight ws + total_weight ws'.
Proof. induction ws as [|n ws IH]; simpl; lia. Qed.

Lemma total_weight_leaves (t : multimap) :
  total_weight (map (fun p => makeLeaf (snd p) (fst p)) t) = table_weight t.
Proof. induction t as [|p t IH]; simpl; [reflexivity|]. now rewrite IH. Qed.

(** Each character of [l] is counted for exactly one symbol of a duplicate-free
    alphabet that covers [l]. *)
Lemma indicator_sum (x : ascii) (alphabet : cstring) :
  NoDup alphabet -> In x alphabet ->
  list_sum (map (fun c => if ascii_dec x c then 1 else 0)%nat alphabet) = 1%nat.
Proof.
  induction 1 as [|a alphabet Hnin Hnd IH]; intros Hin; [contradiction|].
  simpl. destruct (ascii_dec x a) as [->|Hne].
  - assert (list_sum (map (fun c => if ascii_dec a c then 1 else 0)%nat alphabet) = 0%nat)
      as ->; [|reflexivity].
    clear IH Hin Hnd. induction alphabet as [|b l IHl]; [reflexivity|]. simpl.
    destruct (ascii_dec a b) as [->|_]; [exfalso; apply Hnin; now left|].
    apply IHl. intros H. apply Hnin. now right.
  - destruct Hin as [->|Hin]; [congruence|]. now rewrite IH.
Qed.

Lemma count_occ_sum (alphabet l : cstring) :
  NoDup alphabet -> (forall x, In x l -> In x alphabet) ->
  list_sum (map (fun c => count_occ ascii_dec l c) alphabet) = length l.
Proof.
  intros Hnd. induction l as [|x l IH]; intros Hcov.
  - clear. induction alphabet as [|a al IHal]; [reflexivity|exact IHal].
  - assert (Hsplit : forall al,
      list_sum (map (fun c => count_occ ascii_dec (x :: l) c) al)
      = (list_sum (map (fun c => if ascii_dec x c then 1 else 0) al)
         + list_sum (map (fun c => count_occ ascii_dec l c) al))%nat).
    { unfold list_sum. induction al as [|a al IHal]; [reflexivity|].
      cbn [map fold_right]. rewrite IHal. simpl.
      destruct (ascii_dec x a); lia. }
    rewrite Hsplit, indicator_sum, IH; try assumption.
    + reflexivity.
    + intros y Hy. apply Hcov. now right.
    + apply Hcov. now left.
Qed.

Lemma createFrequencyTable_weight (text : cstring) :
  N.of_nat (length text) < SIZE_MAX1 ->
  table_weight (createFrequencyTable text) = N.of_nat (length text).
Proof.
  intros Hlen.
  rewrite (table_weight_perm _ _ (createFrequencyTable_perm text)).
  assert (Hl : length (sort text) = length text) by apply Permutation_length, sort_perm.
  rewrite <- Hl, <- (count_occ_sum (unique_copy (sort text)) (sort text)).
  - induction (unique_copy (sort text)) as [|c al IH]; [reflexivity|].
    simpl. rewrite IH. unfold count, size_of_nat.
    rewrite N.mod_small; [lia|].
    pose proof (count_occ_bound ascii_dec c (sort text)). lia.
  - apply unique_copy_NoDup, sort_sorted.
  - intros x Hx. now apply unique_copy_In.
Qed.

Lemma createFrequencyTable_nonempty (text : cstring) :
  text <> [] -> createFrequencyTable text <> [].
Proof.
  intros Hne Hft. destruct text as [|x text]; [congruence|].
  pose proof (createFrequencyTable_perm (x :: text)) as Hp. rewrite Hft in Hp.
  apply Permutation_nil, map_eq_nil in Hp.
  assert (Hin : In x (unique_copy (sort (x :: text)))).
  { apply unique_copy_In. apply (Permutation_in x (Permutation_sym (sort_perm _))). now left. }
  rewrite Hp in Hin. contradiction.
Qed.

Variable W : N.
Hypothesis W_fits : W < SIZE_MAX1.

Lemma weight_invariant_merge (l r : Node) (rest : list Node) :
  weight_invariant W (l :: r :: rest) ->
  weight_invariant W (rest ++ [makeInternal " " (size_add (weight l) (weight r)) l r]).
Proof.
  intros [Hadd Htot].
  change (total_weight (l :: r :: rest))
    with (weight l + (weight r + total_weight rest)) in Htot.
  inversion Hadd as [|? ? Hl Hadd']; subst. inversion Hadd' as [|? ? Hr Hrest]; subst.
  unfold size_add. rewrite N.mod_small by lia. split.
  - apply Forall_app. split; [exact Hrest|].
    constructor; [|constructor]. now constructor.
  - rewrite total_weight_app.
    change (total_weight [makeInternal " " (weight l + weight r) l r])
      with (weight l + weight r + 0). lia.
Qed.

Lemma weight_invariant_perm (ws ws' : list Node) :
  Permutation ws ws' -> weight_invariant W ws -> weight_invariant W ws'.
Proof.
  intros Hp [Hadd Htot]. split.
  - exact (Permutation_Forall Hp Hadd).
  - now rewrite <- (total_weight_perm _ _ Hp).
Qed.

End Weights.

(** C10. For a non-empty text (of a length that fits [size_t], as the length
    of every [std::string] does) the weights of the frequency table sum to
    the length of the text, [createHuffmanTree] returns a tree in which the
    weight of every node with children is the sum of the weights of its two
    children, and the weight of the root is the length of the text. *)
Theorem root_weight_is_text_length (s : cstring) :
  s <> [] ->
  N.of_nat (length s) < SIZE_MAX1 ->
  table_weight (detail.createFrequencyTable s) = N.of_nat (length s) /\
  exists root,
    detail.createHuffmanTree (detail.createFrequencyTable s) = Returns root /\
    additive root /\
    weight root = N.of_nat (length s).
Proof.
  intros Hne Hlen. split; [now apply createFrequencyTable_weight|].
  destruct (createHuffmanTree_invariant (weight_invariant (N.of_nat (length s)))
              (detail.createFrequencyTable s))
    as (root & Hroot & Hadd & Htot).
  - intros l r rest. now apply weight_invariant_merge.
  - intros ws ws'. apply weight_invariant_perm.
  - now apply createFrequencyTable_nonempty.
  - split.
    + apply Forall_forall. intros n Hn. apply in_map_iff in Hn.
      destruct Hn as (p & <- & _). constructor.
    + rewrite total_weight_leaves. now apply createFrequencyTable_weight.
  - exists root. split; [exact Hroot|]. split; [now inversion Hadd|].
    simpl in Htot. lia.
Qed.

Lemma root_weight_is_text_length_witness :
  table_weight (detail.createFrequencyTable (str "aabbbcc")) = N.of_nat (length (str "aabbbcc")) /\
  exists root,
    detail.createHuffmanTree (detail.createFrequencyTable (str "aabbbcc")) = Returns root /\
    additive root /\
    weight root = N.of_nat (length (str "aabbbcc")).
Proof.
  apply (root_weight_is_text_length (str "aabbbcc")).
  - discriminate.
  - reflexivity.
Defined.

(** ** The table of code lengths *)

Section CodeLengths.

Import detail.

Lemma processLevel_size (height : size_t) (n : nat) :
  forall queue table queue' table',
    processLevel n height queue table = Returns (queue', table') ->
    (forest_size queue' + n = forest_size queue)%nat.
Proof.
  unfold forest_size.
  induction n as [|n IH]; intros queue table queue' table' H; simpl in H.
  - injection H as <- _. lia.
  - destruct queue as [|[p l r] queue]; [discriminate|].
    apply IH in H. simpl in *.
    rewrite !map_app, !list_sum_app in H.
    destruct l, r; simpl in *; lia.
Qed.

(** One run of the inner loop over a whole level. *)
Lemma processLevel_spec (height : size_t) (q : list Node) :
  forall pushed table,
    processLevel (length q) height (q ++ pushed) table
    = Returns (pushed ++ flat_map children q, fold_left (record height) q table).
Proof.
  induction q as [|n q IH]; intros pushed table; simpl.
  - now rewrite app_nil_r.
  - rewrite <- !app_assoc. rewrite IH. unfold children, record.
    now rewrite <- !app_assoc.
Qed.

Lemma processLevel_whole (height : size_t) (q : list Node) (table : multimap) :
  processLevel (length q) height q table
  = Returns (flat_map children q, fold_left (record height) q table).
Proof.
  pose proof (processLevel_spec height q [] table) as H.
  now rewrite app_nil_r in H.
Qed.

Lemma levelLoop_step (n : Node) (q : list Node) (height : size_t) (table : multimap) :
  levelLoop (n :: q) height table
  = levelLoop (flat_map children (n :: q)) (size_add height 1)
              (fold_left (record height) (n :: q) table).
Proof.
  funelim (levelLoop (n :: q) height table);
    match goal with
    | E : processLevel _ _ _ _ = _ |- _ =>
        pose proof E as E'; rewrite processLevel_whole in E'
    end;
    try discriminate E'.
  injection E' as <- <-. reflexivity.
Qed.

Lemma mm_insert_sorted (p : size_t * ascii) (m : multimap) :
  Sorted key_le m -> Sorted key_le (mm_insert p m).
Proof.
  induction 1 as [|q m Hs IH Hhd]; simpl.
  - repeat constructor.
  - destruct (N.ltb_spec (fst p) (fst q)) as [Hlt|Hge].
    + constructor; [now constructor|]. constructor. unfold key_le. lia.
    + constructor; [exact IH|].
      destruct m as [|q' m]; simpl.
      * constructor. exact Hge.
      * inversion Hhd; subst. destruct (fst p <? fst q'); constructor; assumption.
Qed.

Lemma record_sorted (height : size_t) (q : list Node) :
  forall table, Sorted key_le table -> Sorted key_le (fold_left (record height) q table).
Proof.
  induction q as [|n q IH]; intros table Hs; simpl; [exact Hs|].
  apply IH. unfold record. destruct (left n), (right n); auto using mm_insert_sorted.
Qed.

Lemma record_perm (height : size_t) (q : list Node) :
  forall table,
    Permutation (fold_left (record height) q table)
                (table ++ flat_map (leaf_entry height) q).
Proof.
  induction q as [|n q IH]; intros table; simpl.
  - now rewrite app_nil_r.
  - rewrite IH. unfold record, leaf_entry.
    destruct (left n), (right n); simpl; try reflexivity.
    rewrite mm_insert_perm. apply Permutation_middle.
Qed.

Lemma leaf_depths_unfold (h : N) (n : Node) :
  leaf_depths h n = leaf_entry h n ++ flat_map (leaf_depths (h + 1)) (children n).
Proof.
  destruct n as [p [l|] [r|]]; unfold leaf_entry, children; simpl;
    rewrite ?app_nil_r; reflexivity.
Qed.

Lemma level_perm (h : N) (q : list Node) :
  Permutation (flat_map (leaf_depths h) q)
              (flat_map (leaf_entry h) q
               ++ flat_map (leaf_depths (h + 1)) (flat_map children q)).
Proof.
  induction q as [|n q IH]; simpl; [reflexivity|].
  rewrite flat_map_app, IH, leaf_depths_unfold.
  rewrite <- !app_assoc. apply Permutation_app_head.
  rewrite !app_assoc. apply Permutation_app_tail. apply Permutation_app_comm.
Qed.

Lemma tree_height_children (n c : Node) :
  In c (children n) -> 1 + tree_height c <= tree_height n.
Proof.
  destruct n as [p [l|] [r|]]; unfold children; simpl; intros H;
    repeat (destruct H as [<-|H]; [lia|]); contradiction.
Qed.

(** The traversal visits every leaf once and records it at its depth, as
    long as the height counter does not wrap. *)
Lemma levelLoop_spec (queue : list Node) (height : size_t) (table : multimap) :
  Forall (fun t => height + tree_height t + 1 < SIZE_MAX1) queue ->
  exists out,
    levelLoop queue height table = Returns out /\
    Permutation out (table ++ flat_map (leaf_depths height) queue) /\
    (Sorted key_le table -> Sorted key_le out).
Proof.
  remember (forest_size queue) as m eqn:Hm. revert queue height table Hm.
  induction m as [m IH] using lt_wf_ind. intros queue height table Hm Hfit.
  destruct queue as [|n q].
  - exists table. simp levelLoop. simpl. rewrite app_nil_r. auto.
  - rewrite levelLoop_step.
    pose proof (processLevel_whole height (n :: q) table) as Hspec.
    apply processLevel_size in Hspec.
    destruct (IH (forest_size (flat_map children (n :: q))))
      with (queue := flat_map children (n :: q)) (height := size_add height 1)
           (table := fold_left (record height) (n :: q) table)
      as (out & Hout & Hperm & Hsorted).
    + cbn [length app] in Hspec. lia.
    + reflexivity.
    + apply Forall_forall. intros c Hc. apply in_flat_map in Hc.
      destruct Hc as (t & Ht & Hc). rewrite Forall_forall in Hfit.
      specialize (Hfit t Ht). apply tree_height_children in Hc.
      unfold size_add. rewrite N.mod_small; lia.
    + exists out. split; [exact Hout|]. split.
      * rewrite Hperm, record_perm. rewrite <- app_assoc. apply Permutation_app_head.
        assert (Hh : size_add height 1 = height + 1).
        { inversion Hfit; subst. unfold size_add. rewrite N.mod_small; lia. }
        rewrite Hh. symmetry. apply level_perm.
      * intros Hs. apply Hsorted. now apply record_sorted.
Qed.

End CodeLengths.

(** ** A text over one symbol *)

Section OneSymbol.

Import detail.

Variable c : ascii.

Lemma sort_repeat (n : nat) : sort (repeat c n) = repeat c n.
Proof.
  induction n as [|n IH]; [reflexivity|].
  simpl. rewrite IH. destruct n; simpl; [reflexivity|].
  now rewrite char_ltb_irrefl.
Qed.

Lemma unique_copy_repeat (n : nat) : unique_copy (repeat c (S n)) = [c].
Proof.
  induction n as [|n IH]; [reflexivity|].
  change (repeat c (S (S n))) with (c :: c :: repeat c n).
  change (unique_copy (c :: c :: repeat c n))
    with (if char_eqb c c then unique_copy (c :: repeat c n)
          else c :: unique_copy (c :: repeat c n)).
  rewrite char_eqb_refl. exact IH.
Qed.

Lemma createFrequencyTable_repeat (n : nat) :
  createFrequencyTable (repeat c (S n)) = [(count (repeat c (S n)) c, c)].
Proof.
  unfold createFrequencyTable. now rewrite sort_repeat, unique_copy_repeat.
Qed.

Lemma createHuffmanTree_single (w : size_t) :
  createHuffmanTree [(w, c)] = Returns (makeLeaf c w).
Proof.
  unfold createHuffmanTree. simpl. simp mergeLoop. reflexivity.
Qed.

Lemma createCodesLengthTable_leaf (w : size_t) :
  createCodesLengthTable (makeLeaf c w) = Returns [(0, c)].
Proof.
  unfold createCodesLengthTable. rewrite levelLoop_step. simpl. now simp levelLoop.
Qed.

End OneSymbol.

(** C3. For a text made of one symbol repeated the tree is a single leaf,
    which the traversal records at depth 0: the codeword of the symbol is
    the empty string, not one bit, and [encode] with this table throws
    [std::invalid_argument] instead of producing bits that decode to the
    text. *)
Theorem single_symbol_gets_empty_codeword (c : ascii) (n fuel : nat) :
  createEncodingTable (repeat c (S n)) = Returns [(c, [])] /\
  map_find c [(c, [])] = Some [] /\
  encode fuel (repeat c (S n)) [(c, [])] = InvalidArgument.
Proof.
  split; [|split].
  - unfold createEncodingTable.
    rewrite createFrequencyTable_repeat, createHuffmanTree_single. simpl.
    rewrite createCodesLengthTable_leaf. reflexivity.
  - simpl. now rewrite char_eqb_refl.
  - reflexivity.
Qed.

(** ** Canonical codewords *)

Section Canonical.

Import detail.

Lemma diverge_not_prefix (a b : cstring) :
  diverge a b -> ~ is_prefix a b /\ ~ is_prefix b a.
Proof.
  intros (p & x & y & -> & ->). split; intros [t Ht];
    rewrite <- app_assoc in Ht; apply app_inv_head in Ht; discriminate.
Qed.

Lemma diverge_app_r (a b t : cstring) : diverge a b -> diverge a (b ++ t).
Proof.
  intros (p & x & y & -> & ->). exists p, x, (y ++ t).
  split; [reflexivity|]. now rewrite <- app_assoc.
Qed.

Lemma diverge_trans (a b c : cstring) : diverge a b -> diverge b c -> diverge a c.
Proof.
  intros (p & x & y & -> & Hb) (q & z & w & Hb' & ->). subst b.
  apply app_eq_app in Hb'. destruct Hb' as (m & [[-> Hm]|[-> Hm]]).
  - destruct m as [|h m]; simpl in Hm; [discriminate|].
    injection Hm as <- ->.
    exists q, (m ++ "0"%char :: x), w. split; [|reflexivity].
    now rewrite <- app_assoc.
  - destruct m as [|h m]; simpl in Hm; [discriminate|].
    injection Hm as <- ->.
    exists p, x, (m ++ "1"%char :: w). split; [reflexivity|].
    now rewrite <- app_assoc.
Qed.

Lemma val_app (a b : cstring) : val (a ++ b) = val a * 2 ^ N.of_nat (length b) + val b.
Proof.
  induction a as [|c a IH]; simpl; [reflexivity|].
  rewrite IH, length_app, Nat2N.inj_add, N.pow_add_r. ring.
Qed.

Lemma val_zeros (k : nat) : val (repeat "0"%char k) = 0.
Proof. induction k as [|k IH]; simpl; [reflexivity|]. now rewrite IH. Qed.

Lemma val_ones (k : nat) : val (repeat "1"%char k) + 1 = 2 ^ N.of_nat k.
Proof.
  induction k as [|k IH]; [reflexivity|].
  cbn [repeat val]. rewrite repeat_length.
  change (bit "1") with 1. rewrite Nat2N.inj_succ, N.pow_succ_r'. lia.
Qed.

Lemma binary_app (a b : cstring) : binary a -> binary b -> binary (a ++ b).
Proof. intros Ha Hb. apply Forall_app. now split. Qed.

Lemma binary_zeros (k : nat) : binary (repeat "0"%char k).
Proof. apply Forall_forall. intros x Hx. apply repeat_spec in Hx. now left. Qed.

Lemma binary_all_ones (code : cstring) :
  binary code -> ~ In "0"%char code -> code = repeat "1"%char (length code).
Proof.
  induction 1 as [|c code [->| ->] _ IH]; intros Hno; simpl; [reflexivity| |].
  - exfalso. apply Hno. now left.
  - f_equal. apply IH. intros Hin. apply Hno. now right.
Qed.

(** A codeword with a '0' ends in its last '0' followed by '1's only. *)
Lemma last_zero (code : cstring) :
  binary code -> In "0"%char code ->
  exists p k, code = p ++ "0"%char :: repeat "1"%char k.
Proof.
  induction 1 as [|c code Hc Hb IH]; intros Hin; [contradiction|].
  destruct (in_dec ascii_dec "0"%char code) as [Hyes|Hno].
  - destruct (IH Hyes) as (p & k & ->). now exists (c :: p), k.
  - destruct Hin as [->|Hin]; [|contradiction].
    exists [], (length code). simpl. f_equal. now apply binary_all_ones.
Qed.

Lemma rev_repeat_char (x : ascii) (k : nat) : rev (repeat x k) = repeat x k.
Proof.
  induction k as [|k IH]; [reflexivity|].
  simpl. rewrite IH. symmetry. apply repeat_cons.
Qed.

Lemma find_char_ones (k : nat) (t : cstring) :
  find_char "0" (repeat "1"%char k ++ "0"%char :: t) = Some k.
Proof. induction k as [|k IH]; simpl; [reflexivity|]. now rewrite IH. Qed.

Lemma map_flip_ones (k : nat) : map flip (repeat "1"%char k) = repeat "0"%char k.
Proof. induction k as [|k IH]; simpl; [reflexivity|]. now rewrite IH. Qed.

(** Binary increment: the trailing '1's become '0' and the last '0' becomes '1'. *)
Lemma increment_carry (p : cstring) (k : nat) :
  increment (p ++ "0"%char :: repeat "1"%char k) = p ++ "1"%char :: repeat "0"%char k.
Proof.
  unfold increment.
  assert (Hrev : rev (p ++ "0"%char :: repeat "1"%char k)
                 = repeat "1"%char k ++ "0"%char :: rev p).
  { rewrite rev_app_distr. simpl. rewrite rev_repeat_char. now rewrite <- app_assoc. }
  rewrite Hrev, find_char_ones.
  assert (Hk : S k = (length (repeat "1"%char k ++ ["0"%char]))%nat)
    by (rewrite length_app, repeat_length; simpl; lia).
  change (repeat "1"%char k ++ "0"%char :: rev p)
    with (repeat "1"%char k ++ ["0"%char] ++ rev p).
  rewrite app_assoc, Hk.
  rewrite firstn_app, Nat.sub_diag, firstn_all. simpl firstn. rewrite app_nil_r.
  rewrite skipn_app, Nat.sub_diag, skipn_all. simpl skipn.
  rewrite map_app, map_flip_ones. simpl.
  rewrite rev_app_distr, rev_involutive, rev_app_distr. simpl.
  now rewrite rev_repeat_char.
Qed.

End Canonical.

Section Assignment.

Import detail.

Lemma size_sub_small (a b : size_t) : b <= a -> a < SIZE_MAX1 -> size_sub a b = a - b.
Proof.
  intros Hle Hlt. unfold size_sub.
  rewrite (N.mod_small b) by lia.
  replace (a + SIZE_MAX1 - b) with (a - b + 1 * SIZE_MAX1) by lia.
  rewrite N.Div0.mod_add. apply N.mod_small. lia.
Qed.

Lemma val_increment (p : cstring) (k : nat) :
  val (p ++ "1"%char :: repeat "0"%char k) = val (p ++ "0"%char :: repeat "1"%char k) + 1.
Proof.
  rewrite !val_app. cbn [val length]. rewrite !repeat_length, val_zeros.
  pose proof (val_ones k) as Hk.
  change (bit "1") with 1. change (bit "0") with 0. lia.
Qed.

Lemma has_zero (code : cstring) :
  binary code -> val code + 1 < 2 ^ N.of_nat (length code) -> In "0"%char code.
Proof.
  intros Hb Hlt. destruct (in_dec ascii_dec "0"%char code) as [Hin|Hno]; [exact Hin|].
  rewrite (binary_all_ones code Hb Hno) in Hlt.
  rewrite val_ones, repeat_length in Hlt. lia.
Qed.

(** Every codeword diverges from all the later ones, provided the lengths
    ascend and leave room in the Kraft budget. *)
Lemma codeList_chain (D : N) (rest : multimap) :
  D < SIZE_MAX1 ->
  forall previous code c0,
    binary code ->
    N.of_nat (length code) = previous ->
    Sorted key_le ((previous, c0) :: rest) ->
    Forall (fun p => fst p <= D) rest ->
    (val code + 1) * 2 ^ (D - previous) + kraft D rest <= 2 ^ D ->
    Forall (fun e => diverge code (snd e)) (codeList previous code rest) /\
    ForallOrdPairs (fun e1 e2 => diverge (snd e1) (snd e2)) (codeList previous code rest).
Proof.
  intros HD. induction rest as [|[len sym] rest IH];
    intros previous code c0 Hbin Hlen Hsorted Hbound Hbudget.
  - split; constructor.
  - inversion Hsorted as [|? ? Hs Hhd]; subst.
    inversion Hhd as [|? ? Hle]; subst. unfold key_le in Hle.
    inversion Hbound as [|? ? HlenD Hbound']; subst.
    cbn [fst snd] in *. cbn [kraft fold_right fst] in Hbudget.
    fold (kraft D rest) in Hbudget.
    set (prev := N.of_nat (length code)) in *.
    assert (Hpow1 : 2 ^ D = 2 ^ prev * 2 ^ (D - prev)).
    { rewrite <- N.pow_add_r. f_equal. lia. }
    assert (Hpow2 : 2 ^ (D - prev) = 2 ^ (len - prev) * 2 ^ (D - len)).
    { rewrite <- N.pow_add_r. f_equal. lia. }
    assert (HA : 0 < 2 ^ (D - len)) by (apply N.neq_0_lt_0, N.pow_nonzero; lia).
    assert (HC : 0 < 2 ^ (D - prev)) by (apply N.neq_0_lt_0, N.pow_nonzero; lia).
    assert (Hroom : val code + 1 < 2 ^ prev).
    { apply (N.mul_lt_mono_pos_r (2 ^ (D - prev))); [exact HC|]. lia. }
    destruct (last_zero code Hbin (has_zero code Hbin Hroom)) as (p & k & Hcode).
    cbn [codeList fst snd].
    rewrite size_sub_small by lia.
    set (pad := repeat "0"%char (N.to_nat (len - prev))).
    assert (Hinc : increment code = p ++ "1"%char :: repeat "0"%char k)
      by (rewrite Hcode; apply increment_carry).
    assert (Hdiv : diverge code (increment code ++ pad)).
    { apply diverge_app_r. rewrite Hinc, Hcode.
      now exists p, (repeat "1"%char k), (repeat "0"%char k). }
    assert (Hbin' : binary (increment code ++ pad)).
    { apply binary_app; [|apply binary_zeros].
      rewrite Hinc. rewrite Hcode in Hbin. apply Forall_app in Hbin.
      destruct Hbin as [Hp _]. apply binary_app; [exact Hp|].
      constructor; [now right|apply binary_zeros]. }
    assert (Hlen' : N.of_nat (length (increment code ++ pad)) = len).
    { rewrite length_app. unfold pad. rewrite repeat_length, Hinc.
      assert (length (p ++ "1"%char :: repeat "0"%char k) = length code) as ->.
      { rewrite Hcode, !length_app. simpl. now rewrite !repeat_length. }
      fold prev. lia. }
    assert (Hval' : val (increment code ++ pad) = (val code + 1) * 2 ^ (len - prev)).
    { rewrite val_app. unfold pad at 2. rewrite val_zeros.
      unfold pad. rewrite repeat_length, N2Nat.id, Hinc, val_increment, <- Hcode. lia. }
    destruct (IH len (increment code ++ pad) sym Hbin' Hlen' Hs Hbound')
      as [Hall Hpairs].
    { rewrite Hval'.
      replace (((val code + 1) * 2 ^ (len - prev) + 1) * 2 ^ (D - len))
        with ((val code + 1) * (2 ^ (len - prev) * 2 ^ (D - len)) + 2 ^ (D - len)) by ring.
      rewrite <- Hpow2. lia. }
    split.
    + constructor; [exact Hdiv|].
      eapply Forall_impl; [|exact Hall]. intros e He. cbn beta in *.
      eapply diverge_trans; eassumption.
    + constructor; assumption.
Qed.

Lemma map_find_set_same (k : ascii) (v : cstring) (m : encodings) :
  map_find k (map_set k v m) = Some v.
Proof.
  induction m as [|[k' v'] m IH]; simpl; [now rewrite char_eqb_refl|].
  destruct (char_ltb k k') eqn:E1; simpl; [now rewrite char_eqb_refl|].
  destruct (char_ltb k' k) eqn:E2; simpl; [|now rewrite char_eqb_refl].
  destruct (char_eqb k k') eqn:E3; [|exact IH].
  apply char_eqb_eq in E3. subst. rewrite char_ltb_irrefl in E2. discriminate.
Qed.

Lemma map_find_set_other (k k' : ascii) (v : cstring) (m : encodings) :
  k <> k' -> map_find k (map_set k' v m) = map_find k m.
Proof.
  intros Hne. apply char_eqb_neq in Hne.
  induction m as [|[k2 v2] m IH]; simpl; [now rewrite Hne|].
  destruct (char_ltb k' k2) eqn:E1; simpl; [now rewrite Hne|].
  destruct (char_ltb k2 k') eqn:E2; simpl.
  - now rewrite IH.
  - pose proof (char_ltb_trichotomy k' k2 E1 E2) as Heq. subst k2. now rewrite Hne.
Qed.

(** A codeword found in the finished table was assigned by the loop or was
    in the table before it. *)
Lemma assignCodes_find (k : ascii) (w : cstring) (rest : multimap) :
  forall previous code table,
    map_find k (assignCodes previous code rest table) = Some w ->
    In (k, w) (codeList previous code rest) \/ map_find k table = Some w.
Proof.
  induction rest as [|[len sym] rest IH]; intros previous code table H; simpl in *.
  - now right.
  - destruct (IH _ _ _ H) as [Hin|Hfind]; [left; now right|].
    destruct (ascii_dec k sym) as [->|Hne].
    + rewrite map_find_set_same in Hfind. injection Hfind as <-. left. now left.
    + rewrite map_find_set_other in Hfind by assumption. now right.
Qed.

Lemma assignCodes_defined (k : ascii) (rest : multimap) :
  forall previous code table,
    In k (map snd rest) \/ map_find k table <> None ->
    map_find k (assignCodes previous code rest table) <> None.
Proof.
  induction rest as [|[len sym] rest IH]; intros previous code table H; simpl in *.
  - destruct H as [[]|H]. exact H.
  - apply IH. destruct (ascii_dec k sym) as [->|Hne].
    + right. rewrite map_find_set_same. discriminate.
    + destruct H as [[E|H]|H]; [congruence|now left|].
      right. now rewrite map_find_set_other.
Qed.

End Assignment.

(** ** The code of a text is prefix-free *)

Section PrefixFree.

Import detail.

Lemma kraft_app (D : N) (t t' : multimap) : kraft D (t ++ t') = kraft D t + kraft D t'.
Proof. induction t as [|p t IH]; simpl; [reflexivity|]. rewrite IH. lia. Qed.

Lemma kraft_perm (D : N) (t t' : multimap) : Permutation t t' -> kraft D t = kraft D t'.
Proof. induction 1; simpl; lia. Qed.

(** Kraft equality for a tree whose nodes have no child or two. *)
Lemma kraft_leaf_depths (t : Node) :
  full t ->
  forall h D, h + tree_height t <= D -> kraft D (leaf_depths h t) = 2 ^ (D - h).
Proof.
  induction 1 as [p|p l r Hl IHl Hr IHr]; intros h D Hh.
  - simpl. lia.
  - cbn [leaf_depths tree_height] in *. rewrite kraft_app.
    rewrite IHl, IHr by lia.
    replace (D - h) with (N.succ (D - (h + 1))) by lia.
    rewrite N.pow_succ_r'. lia.
Qed.

Lemma leaf_depths_bound (t : Node) :
  full t ->
  forall h, Forall (fun p => fst p <= h + tree_height t) (leaf_depths h t).
Proof.
  induction 1 as [p|p l r Hl IHl Hr IHr]; intros h.
  - simpl. constructor; [simpl; lia|constructor].
  - cbn [leaf_depths tree_height]. apply Forall_app. split.
    + eapply Forall_impl; [|apply (IHl (h + 1))]. intros a Ha. cbn beta in *. lia.
    + eapply Forall_impl; [|apply (IHr (h + 1))]. intros a Ha. cbn beta in *. lia.
Qed.

Lemma leaf_depths_symbols (t : Node) :
  full t -> forall h, map snd (leaf_depths h t) = leaf_symbols t.
Proof.
  induction 1 as [p|p l r Hl IHl Hr IHr]; intros h; [reflexivity|].
  cbn [leaf_depths leaf_symbols]. now rewrite map_app, IHl, IHr.
Qed.

Lemma tree_height_leaves (t : Node) :
  full t -> tree_height t + 1 <= N.of_nat (length (leaf_symbols t)).
Proof.
  induction 1 as [p|p l r Hl IHl Hr IHr]; [simpl; lia|].
  cbn [tree_height leaf_symbols]. rewrite length_app. lia.
Qed.

Lemma NoDup_ascii_length (l : list ascii) : NoDup l -> (length l <= 256)%nat.
Proof.
  intros Hnd.
  replace 256%nat with (length (map ascii_of_nat (seq 0 256)))
    by (now rewrite length_map, length_seq).
  apply NoDup_incl_length; [exact Hnd|].
  intros c _. apply in_map_iff. exists (nat_of_ascii c). split.
  - apply ascii_nat_embedding.
  - apply in_seq. pose proof (nat_ascii_bounded c). lia.
Qed.

Variable symbols : list ascii.

Lemma shape_invariant_merge (l r : Node) (rest : list Node) :
  shape_invariant symbols (l :: r :: rest) ->
  shape_invariant symbols (rest ++ [makeInternal " " (size_add (weight l) (weight r)) l r]).
Proof.
  intros [Hfull Hperm].
  inversion Hfull as [|? ? Hl Hfull']; subst. inversion Hfull' as [|? ? Hr Hrest]; subst.
  split.
  - apply Forall_app. split; [exact Hrest|]. constructor; [|constructor].
    now constructor.
  - rewrite <- Hperm. rewrite flat_map_app. cbn [flat_map makeInternal leaf_symbols].
    rewrite app_nil_r.
    rewrite (app_assoc (leaf_symbols l) (leaf_symbols r) (flat_map leaf_symbols rest)).
    apply Permutation_app_comm.
Qed.

Lemma shape_invariant_perm (ws ws' : list Node) :
  Permutation ws ws' -> shape_invariant symbols ws -> shape_invariant symbols ws'.
Proof.
  intros Hp [Hfull Hperm]. split.
  - exact (Permutation_Forall Hp Hfull).
  - rewrite <- Hperm. symmetry. now apply Permutation_flat_map.
Qed.

Lemma shape_invariant_leaves (t : multimap) :
  symbols = map snd t ->
  shape_invariant symbols (map (fun p => makeLeaf (snd p) (fst p)) t).
Proof.
  intros Hs. split.
  - apply Forall_forall. intros n Hn. apply in_map_iff in Hn.
    destruct Hn as (p & <- & _). constructor.
  - rewrite Hs. clear Hs.
    induction t as [|p t IH]; simpl; [reflexivity|]. now constructor.
Qed.

End PrefixFree.

Lemma Permutation_In_iff {A : Type} (x : A) {l l' : list A} :
  Permutation l l' -> (In x l <-> In x l').
Proof.
  intros Hp. split; apply Permutation_in; [exact Hp|exact (Permutation_sym Hp)].
Qed.

(** The tree of a non-empty text: every node has no child or two, the leaves
    carry the distinct symbols of the text, and the height stays below the
    number of characters a [char] can hold. *)
Lemma createHuffmanTree_shape (text : cstring) :
  text <> [] ->
  exists root,
    detail.createHuffmanTree (detail.createFrequencyTable text) = Returns root /\
    full root /\
    (forall c, In c text <-> In c (leaf_symbols root)) /\
    tree_height root + 1 <= 256.
Proof.
  intros Hne.
  set (ft := detail.createFrequencyTable text).
  destruct (createHuffmanTree_invariant (shape_invariant (map snd ft)) ft)
    as (root & Hroot & Hfull & Hperm).
  - intros l r rest. apply shape_invariant_merge.
  - intros ws ws'. apply shape_invariant_perm.
  - now apply createFrequencyTable_nonempty.
  - now apply shape_invariant_leaves.
  - simpl in Hperm. rewrite app_nil_r in Hperm.
    assert (Hsym : Permutation (map snd ft) (detail.unique_copy (detail.sort text))).
    { unfold ft. rewrite (createFrequencyTable_perm text), map_map. simpl.
      now rewrite map_id. }
    exists root. split; [exact Hroot|]. split; [now inversion Hfull|]. split.
    + intros c. rewrite <- (Permutation_In_iff c (sort_perm text)).
      rewrite <- (unique_copy_In (detail.sort text) c).
      rewrite <- (Permutation_In_iff c Hsym).
      now rewrite <- (Permutation_In_iff c Hperm).
    + pose proof (tree_height_leaves root) as Hh.
      assert (Hfr : full root) by now inversion Hfull.
      specialize (Hh Hfr).
      assert (Hlen : (length (leaf_symbols root) <= 256)%nat).
      { rewrite (Permutation_length Hperm), (Permutation_length Hsym).
        apply NoDup_ascii_length, unique_copy_NoDup, sort_sorted. }
      lia.
Qed.

Section TableEntries.

Import detail.

Lemma map_find_In (k : ascii) (w : cstring) (m : encodings) :
  map_find k m = Some w -> In (k, w) m.
Proof.
  induction m as [|[k' v] m IH]; simpl; [discriminate|].
  destruct (char_eqb k k') eqn:E; intros H.
  - apply char_eqb_eq in E. injection H as <-. subst. now left.
  - right. now apply IH.
Qed.

Lemma map_set_In (k k' : ascii) (w v : cstring) (m : encodings) :
  In (k, w) (map_set k' v m) -> (k, w) = (k', v) \/ In (k, w) m.
Proof.
  induction m as [|[k2 v2] m IH]; simpl.
  - intros [E|[]]. now left.
  - destruct (char_ltb k' k2); [|destruct (char_ltb k2 k')]; simpl;
      intros [E|H]; auto.
    destruct (IH H); auto.
Qed.

Lemma assignCodes_In (k : ascii) (w : cstring) (rest : multimap) :
  forall previous code table,
    In (k, w) (assignCodes previous code rest table) ->
    In (k, w) (codeList previous code rest) \/ In (k, w) table.
Proof.
  induction rest as [|[len sym] rest IH]; intros previous code table H; simpl in *.
  - now right.
  - destruct (IH _ _ _ H) as [Hin|Hin]; [left; now right|].
    apply map_set_In in Hin. destruct Hin as [E|Hin]; [left; now left|now right].
Qed.

Lemma flip_binary (c : ascii) : flip c = "0"%char \/ flip c = "1"%char.
Proof. unfold flip. destruct (char_eqb c "0"); auto. Qed.

Lemma increment_binary (code : cstring) : binary code -> binary (increment code).
Proof.
  unfold binary, increment. rewrite !Forall_forall. intros Hb x Hx.
  apply in_rev, in_app_or in Hx. destruct Hx as [Hx|Hx].
  - apply in_map_iff in Hx. destruct Hx as (y & <- & _). apply flip_binary.
  - apply Hb, in_rev.
    match type of Hx with In _ (skipn ?n ?r) => rewrite <- (firstn_skipn n r) end.
    apply in_or_app. now right.
Qed.

Lemma codeList_binary (rest : multimap) :
  forall previous code,
    binary code -> Forall (fun e => binary (snd e)) (codeList previous code rest).
Proof.
  induction rest as [|[len sym] rest IH]; intros previous code Hb; simpl.
  - constructor.
  - assert (Hb' : binary (increment code
                          ++ repeat "0"%char (N.to_nat (size_sub len previous))))
      by (apply binary_app; [now apply increment_binary|apply binary_zeros]).
    constructor; [exact Hb'|]. now apply IH.
Qed.

Lemma codeList_keys (rest : multimap) :
  forall previous code, map fst (codeList previous code rest) = map snd rest.
Proof.
  induction rest as [|[len sym] rest IH]; intros previous code; simpl; [reflexivity|].
  now rewrite IH.
Qed.

End TableEntries.

(** What [createEncodingTable] returns for a non-empty text: a codeword for
    each symbol of the text and for nothing else, every codeword a string of
    '0' and '1', and two entries of the table diverge at some position. *)
Lemma createEncodingTable_structure (text : cstring) :
  text <> [] ->
  exists table,
    createEncodingTable text = Returns table /\
    (forall c, In c text -> map_find c table <> None) /\
    (forall k w, In (k, w) table -> In k text /\ binary w) /\
    (forall a b wa wb,
        In (a, wa) table -> In (b, wb) table ->
        (a, wa) = (b, wb) \/ diverge wa wb \/ diverge wb wa).
Proof.
  intros Hne. unfold createEncodingTable.
  destruct (createHuffmanTree_shape text Hne) as (root & Hroot & Hfull & Hsyms & Hheight).
  rewrite Hroot. cbn [bind]. unfold detail.createCodesLengthTable.
  destruct (levelLoop_spec [root] 0 []) as (lengths & Hloop & Hperm & Hsorted).
  { constructor; [|constructor]. unfold SIZE_MAX1. simpl (2 ^ 64). lia. }
  rewrite Hloop. cbn [bind].
  cbn [flat_map app] in Hperm. rewrite app_nil_r in Hperm.
  specialize (Hsorted (Sorted_nil _)).
  set (D := tree_height root) in *.
  assert (HD : D < SIZE_MAX1) by (unfold SIZE_MAX1; simpl (2 ^ 64); lia).
  assert (Hkraft : kraft D lengths = 2 ^ D).
  { rewrite (kraft_perm D _ _ Hperm), (kraft_leaf_depths root Hfull 0 D) by lia.
    f_equal. lia. }
  assert (Hbound : Forall (fun p => fst p <= D) lengths).
  { apply (Permutation_Forall (Permutation_sym Hperm)).
    exact (leaf_depths_bound root Hfull 0). }
  assert (Hkeys : forall c, In c text <-> In c (map snd lengths)).
  { intros c. rewrite (Permutation_In_iff c (Permutation_map snd Hperm)).
    rewrite leaf_depths_symbols by assumption. apply Hsyms. }
  destruct lengths as [|[len0 sym0] rest].
  { destruct text as [|c text]; [congruence|]. destruct (proj1 (Hkeys c)). now left. }
  cbn [detail.createEncodingTable fst snd].
  set (code0 := repeat "0"%char (N.to_nat len0)).
  inversion Hbound as [|? ? Hlen0 Hbound']; subst. cbn [fst] in Hlen0.
  destruct (codeList_chain D rest HD len0 code0 sym0) as [Hall Hpairs];
    try assumption.
  { apply binary_zeros. }
  { unfold code0. rewrite repeat_length. apply N2Nat.id. }
  { unfold code0. rewrite val_zeros. cbn [kraft fold_right fst] in Hkraft.
    fold (kraft D rest) in Hkraft. lia. }
  assert (Hentry : forall k w,
    In (k, w) (detail.assignCodes len0 code0 rest (map_set sym0 code0 [])) ->
    In (k, w) ((sym0, code0) :: codeList len0 code0 rest)).
  { intros k w Hk. apply assignCodes_In in Hk. destruct Hk as [Hk|Hk]; [now right|].
    left. destruct Hk as [Hk|[]]. now symmetry. }
  eexists. split; [reflexivity|]. split; [|split].
  - intros c Hc. apply assignCodes_defined.
    destruct (proj1 (Hkeys c) Hc) as [E|Hin]; [|now left].
    right. cbn [snd] in E. subst c. rewrite map_find_set_same. discriminate.
  - intros k w Hk. apply Hentry in Hk. split.
    + apply Hkeys. apply (in_map fst) in Hk. cbn [map fst] in Hk.
      rewrite codeList_keys in Hk. exact Hk.
    + assert (Hb : Forall (fun e => binary (snd e))
                          ((sym0, code0) :: codeList len0 code0 rest)).
      { constructor; [apply binary_zeros|apply codeList_binary, binary_zeros]. }
      rewrite Forall_forall in Hb. exact (Hb _ Hk).
  - intros a b wa wb Ha Hb. apply Hentry in Ha, Hb.
    assert (Hfop : ForallOrdPairs (fun e1 e2 => diverge (snd e1) (snd e2))
                                  ((sym0, code0) :: codeList len0 code0 rest))
      by (constructor; assumption).
    exact (ForallOrdPairs_In Hfop _ _ Ha Hb).
Qed.

(** C5. For a non-empty text [createEncodingTable] returns a table that holds
    a codeword for every symbol of the text and in which, for two distinct
    symbols, neither codeword is a prefix of the other. *)
Theorem createEncodingTable_prefix_free (text : cstring) :
  text <> [] ->
  exists table,
    createEncodingTable text = Returns table /\
    (forall c, In c text -> map_find c table <> None) /\
    (forall a b wa wb,
        a <> b ->
        map_find a table = Some wa -> map_find b table = Some wb ->
        ~ is_prefix wa wb /\ ~ is_prefix wb wa).
Proof.
  intros Hne.
  destruct (createEncodingTable_structure text Hne) as (table & Htable & Hdef & _ & Hdiv).
  exists table. split; [exact Htable|]. split; [exact Hdef|].
  intros a b wa wb Hab Ha Hb.
  apply map_find_In in Ha, Hb.
  destruct (Hdiv a b wa wb Ha Hb) as [E|[Hd|Hd]].
  - congruence.
  - now apply diverge_not_prefix in Hd.
  - apply diverge_not_prefix in Hd. tauto.
Qed.

Lemma createEncodingTable_prefix_free_witness :
  exists table,
    createEncodingTable (str "aabbbcc") = Returns table /\
    (forall c, In c (str "aabbbcc") -> map_find c table <> None) /\
    (forall a b wa wb,
        a <> b ->
        map_find a table = Some wa -> map_find b table = Some wb ->
        ~ is_prefix wa wb /\ ~ is_prefix wb wa).
Proof.
  apply (createEncodingTable_prefix_free (str "aabbbcc")). discriminate.
Defined.

(** ** Where the round trip holds *)

Section RoundTrip.

Lemma diverge_irrefl (w : cstring) : ~ diverge w w.
Proof.
  intros (p & x & y & H1 & H2). rewrite H1 in H2. apply app_inv_head in H2. discriminate.
Qed.

Lemma diverge_nonempty (a b : cstring) : diverge a b -> a <> [] /\ b <> [].
Proof. intros (p & x & y & -> & ->). split; now destruct p. Qed.

Lemma copyEncodings_find (x : cstring) (c : ascii) (table : encodings) :
  forall acc,
    dmap_find x (fold_left (fun ce p => dmap_set (snd p) (fst p) ce) table acc) = Some c ->
    In (c, x) table \/ dmap_find x acc = Some c.
Proof.
  induction table as [|[k w] table IH]; intros acc H; simpl in *; [now right|].
  destruct (IH _ H) as [Hin|Hfind]; [left; now right|].
  unfold dmap_set in Hfind. simpl in Hfind.
  destruct (string_eqb x w) eqn:E; [|now right].
  apply string_eqb_eq in E. injection Hfind as <-. subst. left. now left.
Qed.

Lemma copyEncodings_defined (x : cstring) (table : encodings) :
  forall acc,
    (exists c, In (c, x) table) \/ dmap_find x acc <> None ->
    dmap_find x (fold_left (fun ce p => dmap_set (snd p) (fst p) ce) table acc) <> None.
Proof.
  induction table as [|[k w] table IH]; intros acc H; simpl in *.
  - destruct H as [[c []]|H]. exact H.
  - apply IH. unfold dmap_set. simpl. destruct (string_eqb x w) eqn:E.
    + right. discriminate.
    + destruct H as [[c [Heq|Hin]]|H]; [|left; now exists c|now right].
      injection Heq as _ Hwx. subst w.
      assert (string_eqb x x = true) by now apply string_eqb_eq.
      congruence.
Qed.

Variable copiedEncodings : decodings.

(** A codeword no proper prefix of which is a codeword is consumed whole and
    gives its symbol. *)
Lemma decodeLoop_codeword (w : cstring) (c : ascii) :
  dmap_find w copiedEncodings = Some c ->
  (forall p t, w = p ++ t -> t <> [] -> dmap_find p copiedEncodings = None) ->
  forall pending code rest decodedText,
    w = code ++ pending -> pending <> [] ->
    decodeLoop copiedEncodings (pending ++ rest) decodedText code
    = decodeLoop copiedEncodings rest (decodedText ++ [c]) [].
Proof.
  intros Hw Hfree pending.
  induction pending as [|b pending IH]; intros code rest decodedText Heq Hne;
    [congruence|].
  simpl. destruct pending as [|b' pending].
  - rewrite <- Heq, Hw. reflexivity.
  - rewrite (Hfree (code ++ [b]) (b' :: pending)).
    + apply IH; [|discriminate]. now rewrite <- app_assoc.
    + now rewrite <- app_assoc.
    + discriminate.
Qed.

End RoundTrip.

(** X1. For a text with at least two distinct symbols and without the
    characters '0' and '1', encoding with the table of the text and decoding
    gives the text back. (A text over one symbol and a text with a '0' or a
    '1' are where the round trip is lost.) *)
Theorem roundtrip_without_digits (text : cstring) (a b : ascii) (fuel : nat) :
  In a text -> In b text -> a <> b ->
  ~ In "0"%char text -> ~ In "1"%char text ->
  (length text <= fuel)%nat ->
  exists table bits,
    createEncodingTable text = Returns table /\
    encode fuel text table = Returns bits /\
    decode bits table = text.
Proof.
  intros Ha Hb Hab Hno0 Hno1 Hfuel.
  assert (Hne : text <> []) by (intros ->; contradiction).
  destruct (createEncodingTable_structure text Hne)
    as (table & Htable & Hdef & Hentries & Hdiv).
  assert (Hcode : forall k w, In (k, w) table -> w <> []).
  { intros k w Hk.
    assert (Hother : exists k' w', In (k', w') table /\ k' <> k).
    { destruct (ascii_dec k a) as [->|Hka].
      - destruct (map_find b table) as [wb|] eqn:E; [|now apply Hdef in Hb].
        exists b, wb. split; [now apply map_find_In|congruence].
      - destruct (map_find a table) as [wa|] eqn:E; [|now apply Hdef in Ha].
        exists a, wa. split; [now apply map_find_In|congruence]. }
    destruct Hother as (k' & w' & Hk' & Hkk').
    destruct (Hdiv k k' w w' Hk Hk') as [E|[Hd|Hd]]; [congruence| |];
      apply diverge_nonempty in Hd; tauto. }
  assert (Hfree : forall k w x, In (k, w) table -> In x text -> ~ In x w).
  { intros k w x Hk Hx Hin. destruct (Hentries k w Hk) as [_ Hbin].
    unfold binary in Hbin. rewrite Forall_forall in Hbin.
    destruct (Hbin x Hin) as [-> | ->]; contradiction. }
  exists table, (flat_map (substitute table) text).
  split; [exact Htable|]. split.
  - apply encodeLoop_spec; try assumption.
    + intros c code k Hc Hk. apply in_map_iff in Hk.
      destruct Hk as ([k' w'] & <- & Hk'). apply (Hfree c code k' Hc).
      now apply (Hentries k' w').
    + intros k _. etransitivity; [apply count_occ_bound|exact Hfuel].
  - unfold decode, decodeState.
    assert (Hloop : forall l out,
      (forall c, In c l -> In c text) ->
      decodeLoop (copyEncodings table) (flat_map (substitute table) l) out []
      = (out ++ l, [])).
    { induction l as [|c l IH]; intros out Hl; simpl; [now rewrite app_nil_r|].
      assert (Hc : In c text) by (apply Hl; now left).
      unfold substitute at 1.
      destruct (map_find c table) as [w|] eqn:Hw; [|now apply Hdef in Hc].
      apply map_find_In in Hw.
      assert (Hfound : forall x k, dmap_find x (copyEncodings table) = Some k ->
                                   In (k, x) table).
      { intros x k Hx. apply copyEncodings_find in Hx.
        destruct Hx as [Hx|Hx]; [exact Hx|discriminate]. }
      rewrite (decodeLoop_codeword (copyEncodings table) w c) with (code := []).
      - rewrite IH by (intros c' Hc'; apply Hl; now right).
        now rewrite <- app_assoc.
      - destruct (dmap_find w (copyEncodings table)) as [k|] eqn:Hk.
        + apply Hfound in Hk.
          destruct (Hdiv k c w w Hk Hw) as [E|[Hd|Hd]]; [congruence| |];
            now apply diverge_irrefl in Hd.
        + exfalso. revert Hk. apply copyEncodings_defined. left. now exists c.
      - intros p t Hpt Ht.
        destruct (dmap_find p (copyEncodings table)) as [k|] eqn:Hk; [|reflexivity].
        exfalso. apply Hfound in Hk.
        destruct (Hdiv k c p w Hk Hw) as [E|[Hd|Hd]].
        + injection E as _ E. rewrite E in Hpt.
          rewrite <- (app_nil_r w) in Hpt at 1. apply app_inv_head in Hpt. congruence.
        + apply diverge_not_prefix in Hd. apply (proj1 Hd). now exists t.
        + apply diverge_not_prefix in Hd. apply (proj2 Hd). now exists t.
      - reflexivity.
      - now apply (Hcode c). }
    rewrite (Hloop text [] (fun c H => H)). reflexivity.
Qed.

Lemma roundtrip_without_digits_witness :
  exists table bits,
    createEncodingTable (str "aabbbcc") = Returns table /\
    encode 7 (str "aabbbcc") table = Returns bits /\
    decode bits table = str "aabbbcc".
Proof.
  apply (roundtrip_without_digits (str "aabbbcc") "a" "b" 7).
  - now left.
  - right. right. now left.
  - discriminate.
  - simpl. intros H. repeat (destruct H as [H|H]; [discriminate|]). exact H.
  - simpl. intros H. repeat (destruct H as [H|H]; [discriminate|]). exact H.
  - simpl. lia.
Defined.

(** * Further properties of the code *)

(** ** decode *)

Section DecodeMore.

Variable copiedEncodings : decodings.

(** The decoded text only grows: what the loop emits is appended to what
    was emitted before, and the buffer does not depend on it. *)
Lemma decodeLoop_output (text : cstring) :
  forall decodedText code,
    decodeLoop copiedEncodings text decodedText code
    = (decodedText ++ fst (decodeLoop copiedEncodings text [] code),
       snd (decodeLoop copiedEncodings text [] code)).
Proof.
  induction text as [|bit text IH]; intros decodedText code; simpl.
  - now rewrite app_nil_r.
  - destruct (dmap_find (code ++ [bit]) copiedEncodings) as [c|].
    + rewrite (IH (decodedText ++ [c])), (IH ([] ++ [c])). simpl.
      now rewrite <- app_assoc.
    + apply IH.
Qed.

Lemma decodeLoop_app (a b : cstring) :
  forall decodedText code,
    decodeLoop copiedEncodings (a ++ b) decodedText code
    = decodeLoop copiedEncodings b
        (fst (decodeLoop copiedEncodings a decodedText code))
        (snd (decodeLoop copiedEncodings a decodedText code)).
Proof.
  induction a as [|bit a IH]; intros decodedText code; simpl; [reflexivity|].
  destruct (dmap_find (code ++ [bit]) copiedEncodings); apply IH.
Qed.

Lemma decodeLoop_bounded (text : cstring) :
  forall decodedText code,
    (length (fst (decodeLoop copiedEncodings text decodedText code))
     + length (snd (decodeLoop copiedEncodings text decodedText code))
     <= length decodedText + length code + length text)%nat.
Proof.
  induction text as [|bit text IH]; intros decodedText code; simpl; [lia|].
  destruct (dmap_find (code ++ [bit]) copiedEncodings) as [c|].
  - specialize (IH (decodedText ++ [c]) []). rewrite length_app in IH. simpl in IH. lia.
  - specialize (IH decodedText (code ++ [bit])). rewrite length_app in IH. simpl in IH. lia.
Qed.

(** A text made of codewords of a prefix-free table is decoded codeword by
    codeword. *)
Lemma decodeLoop_codewords (table : encodings) (symbols : list ascii) :
  copiedEncodings = copyEncodings table ->
  (forall a wa, In (a, wa) table -> wa <> []) ->
  (forall a b wa wb,
      In (a, wa) table -> In (b, wb) table -> is_prefix wa wb -> a = b /\ wa = wb) ->
  (forall c, In c symbols -> map_find c table <> None) ->
  forall decodedText,
    decodeLoop copiedEncodings (flat_map (substitute table) symbols) decodedText []
    = (decodedText ++ symbols, []).
Proof.
  intros Hce Hne Hpf. induction symbols as [|c symbols IH]; intros Hdef decodedText; simpl.
  - now rewrite app_nil_r.
  - unfold substitute at 1.
    destruct (map_find c table) as [w|] eqn:Hw; [|exfalso; apply (Hdef c); auto; now left].
    apply map_find_In in Hw.
    assert (Hfound : forall x k, dmap_find x copiedEncodings = Some k -> In (k, x) table).
    { intros x k Hx. rewrite Hce in Hx. apply copyEncodings_find in Hx.
      destruct Hx as [Hx|Hx]; [exact Hx|discriminate]. }
    rewrite (decodeLoop_codeword copiedEncodings w c) with (code := []).
    + rewrite IH by (intros c' Hc'; apply Hdef; now right).
      now rewrite <- app_assoc.
    + destruct (dmap_find w copiedEncodings) as [k|] eqn:Hk.
      * apply Hfound in Hk.
        destruct (Hpf k c w w Hk Hw) as [-> _]; [now exists []; rewrite app_nil_r|].
        reflexivity.
      * exfalso. revert Hk. rewrite Hce. apply copyEncodings_defined. left. now exists c.
    + intros p t Hpt Ht.
      destruct (dmap_find p copiedEncodings) as [k|] eqn:Hk; [|reflexivity].
      exfalso. apply Hfound in Hk.
      destruct (Hpf k c p w Hk Hw) as [_ E]; [now exists t|].
      rewrite E in Hpt. rewrite <- (app_nil_r w) in Hpt at 1.
      apply app_inv_head in Hpt. congruence.
    + reflexivity.
    + now apply (Hne c).
Qed.

End DecodeMore.

(** X2. For every table whose codewords are non-empty and prefix-free (a
    codeword of the table is a prefix of another entry's codeword only if
    the two entries are the same), [decode] gives back any sequence of
    table symbols from the concatenation of their codewords, and ends with
    an empty buffer. *)
Theorem decode_inverts_codewords (table : encodings) (symbols : list ascii) :
  (forall a wa, In (a, wa) table -> wa <> []) ->
  (forall a b wa wb,
      In (a, wa) table -> In (b, wb) table -> is_prefix wa wb -> a = b /\ wa = wb) ->
  (forall c, In c symbols -> map_find c table <> None) ->
  decodeState (flat_map (substitute table) symbols) table = (symbols, []) /\
  decode (flat_map (substitute table) symbols) table = symbols.
Proof.
  intros Hne Hpf Hdef. unfold decode, decodeState.
  rewrite (decodeLoop_codewords (copyEncodings table) table symbols eq_refl Hne Hpf Hdef []).
  split; reflexivity.
Qed.

Lemma decode_inverts_codewords_witness :
  decodeState (flat_map (substitute table_aabbbcc) (str "cab")) table_aabbbcc
    = (str "cab", []) /\
  decode (flat_map (substitute table_aabbbcc) (str "cab")) table_aabbbcc = str "cab".
Proof.
  apply (decode_inverts_codewords table_aabbbcc (str "cab")).
  - intros a wa H. simpl in H.
    repeat (destruct H as [H|H]; [injection H as <- <-; discriminate|]). contradiction.
  - intros a b wa wb Ha Hb [t Ht]. simpl in Ha, Hb.
    repeat (destruct Ha as [Ha|Ha]; [injection Ha as <- <-|]); try contradiction;
      repeat (destruct Hb as [Hb|Hb]; [injection Hb as <- <-|]); try contradiction;
      try discriminate; split; reflexivity.
  - intros c H. simpl in H.
    repeat (destruct H as [<-|H]; [discriminate|]). contradiction.
Defined.

(** X3. Decoding composes at codeword boundaries: when the bits [a] leave an
    empty buffer, decoding [a] followed by [b] gives the decoding of [a]
    followed by the decoding of [b]. *)
Theorem decode_composes_at_boundary (a b : cstring) (table : encodings) :
  snd (decodeState a table) = [] ->
  decode (a ++ b) table = decode a table ++ decode b table.
Proof.
  unfold decode, decodeState. intros Hbuf.
  rewrite decodeLoop_app, Hbuf, decodeLoop_output. reflexivity.
Qed.

Lemma decode_composes_at_boundary_witness :
  decode (str "110" ++ str "1011") table_aabbbcc
  = decode (str "110") table_aabbbcc ++ decode (str "1011") table_aabbbcc.
Proof.
  apply (decode_composes_at_boundary (str "110") (str "1011") table_aabbbcc).
  reflexivity.
Defined.

(** X4. [decode] emits at most one symbol per bit read (the bits left in the
    buffer count against the output as well), and every symbol it emits has
    an entry in the table. An empty codeword is never matched. *)
Theorem decode_output_bounded (bits : cstring) (table : encodings) :
  (length (decode bits table) + length (snd (decodeState bits table)) <= length bits)%nat /\
  (forall c, In c (decode bits table) -> exists w, In (c, w) table /\ w <> []).
Proof.
  unfold decode, decodeState. split.
  - pose proof (decodeLoop_bounded (copyEncodings table) bits [] []) as H.
    simpl in H. exact H.
  - intros c Hc.
    assert (Hgen : forall text decodedText code,
      In c (fst (decodeLoop (copyEncodings table) text decodedText code)) ->
      In c decodedText \/
      exists w, dmap_find w (copyEncodings table) = Some c /\ w <> []).
    { induction text as [|bit text IH]; intros decodedText code H; simpl in H; [now left|].
      destruct (dmap_find (code ++ [bit]) (copyEncodings table)) as [k|] eqn:Hk.
      - destruct (IH _ _ H) as [Hin|Hex]; [|now right].
        apply in_app_or in Hin. destruct Hin as [Hin|[<-|[]]]; [now left|].
        right. exists (code ++ [bit]). split; [exact Hk|]. now destruct code.
      - exact (IH _ _ H). }
    destruct (Hgen bits [] [] Hc) as [[]|(w & Hw & Hne)].
    exists w. split; [|exact Hne].
    apply copyEncodings_find in Hw. destruct Hw as [Hw|Hw]; [exact Hw|discriminate].
Qed.

(** ** replaceSubstring and encode *)

Section ReplaceMore.

Import detail.

Lemma replaceLoop_result (fuel : nat) (toReplace replaceWith : cstring) :
  forall s pos r,
    s <> [] -> replaceWith <> [] ->
    replaceLoop fuel s toReplace replaceWith pos = r ->
    r = OutOfFuel \/ exists s', r = Returns s' /\ s' <> [].
Proof.
  induction fuel as [|fuel IH]; intros s pos r Hs Hw H.
  - destruct pos; simpl in H; subst r; [now left|right; now exists s].
  - destruct pos as [p|]; simpl in H; [|subst r; right; now exists s].
    apply (IH _ _ r) in H; [exact H| |exact Hw].
    unfold string_replace. intros E. apply app_eq_nil in E. destruct E as [_ E].
    apply app_eq_nil in E. destruct E as [E _]. contradiction.
Qed.

Lemma starts_with_app (p s r : cstring) :
  starts_with p s = true -> starts_with p (s ++ r) = true.
Proof.
  revert s. induction p as [|a p IH]; intros s H; [reflexivity|].
  destruct s as [|b s]; simpl in *; [discriminate|].
  apply andb_true_iff in H. destruct H as [H1 H2]. rewrite H1. simpl. now apply IH.
Qed.

Lemma find_sub_app (p s r : cstring) :
  p <> [] -> find_sub p s <> None -> find_sub p (s ++ r) <> None.
Proof.
  intros Hp. induction s as [|b s IH]; intros H.
  - destruct p; [congruence|]. simpl in H. congruence.
  - simpl in H. change (find_sub p ((b :: s) ++ r))
      with (if starts_with p ((b :: s) ++ r) then Some 0%nat
            else option_map S (find_sub p (s ++ r))).
    destruct (starts_with p (b :: s)) eqn:E.
    + now rewrite (starts_with_app p (b :: s) r E).
    + destruct (starts_with p ((b :: s) ++ r)); [discriminate|].
      destruct (find_sub p s) eqn:F; [|simpl in H; congruence].
      destruct (find_sub p (s ++ r)) eqn:G; [discriminate|].
      exfalso. apply IH; [discriminate|reflexivity].
Qed.

Lemma find_sub_bound (p s : cstring) (k : nat) :
  find_sub p s = Some k -> (k <= length s)%nat.
Proof.
  revert k. induction s as [|b s IH]; intros k H.
  - simpl in H. destruct (starts_with p []); [|discriminate]. injection H as <-. lia.
  - simpl in H. destruct (starts_with p (b :: s)).
    + injection H as <-. lia.
    + destruct (find_sub p s) as [j|]; [|discriminate]. injection H as <-.
      specialize (IH j eq_refl). simpl. lia.
Qed.

(** With the pattern inside the replacement, every replacement leaves an
    occurrence at or after the position where the search resumes. *)
Lemma replaceLoop_never_ends (toReplace replaceWith : cstring) :
  toReplace <> [] ->
  find_sub toReplace replaceWith <> None ->
  forall fuel s pos,
    (pos <= length s)%nat ->
    replaceLoop fuel s toReplace replaceWith (Some pos) = OutOfFuel.
Proof.
  intros Hp Hin. induction fuel as [|fuel IH]; intros s pos Hpos; [reflexivity|].
  simpl. unfold string_replace, string_find.
  assert (Hlen : length (firstn pos s) = pos) by (rewrite length_firstn; lia).
  destruct (Nat.ltb_spec
              (length (firstn pos s ++ replaceWith ++ skipn (pos + length toReplace) s))
              pos) as [Hlt|_].
  { exfalso. rewrite length_app in Hlt. lia. }
  assert (Hskip : skipn pos (firstn pos s ++ replaceWith
                             ++ skipn (pos + length toReplace) s)
                  = replaceWith ++ skipn (pos + length toReplace) s).
  { rewrite skipn_app, Hlen, Nat.sub_diag.
    rewrite (skipn_all2 (firstn pos s)) by lia. reflexivity. }
  rewrite Hskip.
  destruct (find_sub toReplace (replaceWith ++ skipn (pos + length toReplace) s))
    as [k|] eqn:Hk.
  - simpl. apply IH. apply find_sub_bound in Hk.
    rewrite !length_app in *. lia.
  - exfalso. revert Hk. now apply find_sub_app.
Qed.

End ReplaceMore.

(** X5. [replaceSubstring] throws [std::invalid_argument] exactly when one
    of its three strings is empty; with three non-empty strings it either
    returns a non-empty string or is still running when the budget of
    iterations is used up. *)
Theorem replaceSubstring_throws_iff_empty
    (fuel : nat) (s toReplace replaceWith : cstring) :
  (detail.replaceSubstring fuel s toReplace replaceWith = InvalidArgument
   <-> toReplace = [] \/ s = [] \/ replaceWith = []) /\
  (forall r, detail.replaceSubstring fuel s toReplace replaceWith = Returns r -> r <> []) /\
  detail.replaceSubstring fuel s toReplace replaceWith <> UndefinedBehaviour.
Proof.
  unfold detail.replaceSubstring.
  destruct toReplace as [|a p]; [repeat split; auto; discriminate|].
  destruct s as [|b s]; [repeat split; auto; discriminate|].
  destruct replaceWith as [|e w]; [repeat split; auto; discriminate|].
  cbn [detail.is_empty orb].
  destruct (replaceLoop_result fuel (a :: p) (e :: w) (b :: s)
              (detail.string_find (b :: s) (a :: p) 0) _
              ltac:(discriminate) ltac:(discriminate) eq_refl)
    as [H|(s' & H & Hs')]; rewrite H.
  - repeat split; try discriminate. intros [E|[E|E]]; discriminate.
  - repeat split; try discriminate.
    + intros [E|[E|E]]; discriminate.
    + intros r Hr. injection Hr as <-. exact Hs'.
Qed.

(** X6. When the replacement does not contain the character searched for,
    [replaceSubstring] with a one-character pattern returns the string in
    which every occurrence of the character is replaced and every other
    character is kept, using one iteration per occurrence. *)
Theorem replaceSubstring_replaces_every_occurrence
    (fuel : nat) (s : cstring) (c : ascii) (replaceWith : cstring) :
  s <> [] -> replaceWith <> [] -> ~ In c replaceWith ->
  (count_occ ascii_dec s c <= fuel)%nat ->
  detail.replaceSubstring fuel s [c] replaceWith
  = Returns (flat_map (fun x => if char_eqb x c then replaceWith else [x]) s).
Proof.
  intros Hs Hw Hfree Hfuel.
  exact (replaceSubstring_spec c replaceWith Hfree fuel s Hs Hw Hfuel).
Qed.

Lemma replaceSubstring_replaces_every_occurrence_witness :
  detail.replaceSubstring 2 (str "abca") ["a"%char] (str "10")
  = Returns (flat_map (fun x => if char_eqb x "a" then str "10" else [x]) (str "abca")).
Proof.
  apply (replaceSubstring_replaces_every_occurrence 2 (str "abca") "a" (str "10")).
  - discriminate.
  - discriminate.
  - simpl. intros [H|[H|[]]]; discriminate.
  - simpl. lia.
Defined.

(** X7. When the replacement contains the pattern and the pattern occurs in
    the string, the loop of [replaceSubstring] is still running after any
    number of iterations: the search resumes at the position of the
    replacement and finds the pattern again inside it. *)
Theorem replaceSubstring_never_ends
    (fuel : nat) (s toReplace replaceWith : cstring) :
  toReplace <> [] ->
  detail.find_sub toReplace replaceWith <> None ->
  detail.find_sub toReplace s <> None ->
  detail.replaceSubstring fuel s toReplace replaceWith = OutOfFuel.
Proof.
  intros Hp Hw Hs. unfold detail.replaceSubstring.
  destruct toReplace as [|a p]; [congruence|].
  destruct s as [|b s]; [simpl in Hs; congruence|].
  destruct replaceWith as [|e w]; [simpl in Hw; congruence|].
  cbn [detail.is_empty orb]. unfold detail.string_find at 1.
  cbn [length Nat.ltb Nat.leb skipn].
  destruct (detail.find_sub (a :: p) (b :: s)) as [k|] eqn:Hk; [|congruence].
  cbn [option_map Nat.add].
  apply replaceLoop_never_ends; [discriminate|exact Hw|].
  now apply find_sub_bound in Hk.
Qed.

Lemma replaceSubstring_never_ends_witness :
  detail.replaceSubstring 1000 (str "a1") (str "1") (str "10") = OutOfFuel.
Proof.
  apply (replaceSubstring_never_ends 1000 (str "a1") (str "1") (str "10"));
    discriminate.
Defined.

Lemma replaceSubstring_returns (fuel : nat) (s toReplace replaceWith r : cstring) :
  detail.replaceSubstring fuel s toReplace replaceWith = Returns r ->
  s <> [] /\ replaceWith <> [] /\ r <> [].
Proof.
  unfold detail.replaceSubstring.
  destruct toReplace as [|a p]; [discriminate|].
  destruct s as [|b s]; [discriminate|].
  destruct replaceWith as [|e w]; [discriminate|].
  cbn [detail.is_empty orb]. intros H.
  destruct (replaceLoop_result fuel (a :: p) (e :: w) (b :: s) _ _
              ltac:(discriminate) ltac:(discriminate) H)
    as [E|(s' & E & Hs')]; [discriminate|].
  injection E as <-. repeat split; try discriminate. exact Hs'.
Qed.

(** X8. [encode] returns a result only for usable arguments: if it returns
    with a table that is not empty, then the text is not empty, no codeword
    of the table is empty, and the result is not empty. (Otherwise the guard
    of [replaceSubstring] throws, or a replacement loop does not end.) *)
Theorem encode_returns_only_for_usable_table
    (fuel : nat) (text : cstring) (table : encodings) (r : cstring) :
  encode fuel text table = Returns r ->
  table <> [] ->
  text <> [] /\ r <> [] /\ (forall c w, In (c, w) table -> w <> []).
Proof.
  unfold encode. revert text.
  induction table as [|[c w] table IH]; intros text H Hne; [congruence|].
  simpl in H.
  destruct (detail.replaceSubstring fuel text [c] w) as [s| | |] eqn:Hs;
    try discriminate.
  apply replaceSubstring_returns in Hs. destruct Hs as (Htext & Hw & Hs).
  simpl in H. destruct table as [|e table].
  - simpl in H. injection H as <-. repeat split; try assumption.
    intros c' w' [E|[]]. now injection E as _ <-.
  - destruct (IH s H ltac:(discriminate)) as (_ & Hr & Hall).
    repeat split; try assumption.
    intros c' w' [E|Hin]; [now injection E as _ <-|]. exact (Hall c' w' Hin).
Qed.

Lemma encode_returns_only_for_usable_table_witness :
  str "abc" <> [] /\ str "11010" <> [] /\
  (forall c w, In (c, w) table_aabbbcc -> w <> []).
Proof.
  apply (encode_returns_only_for_usable_table 3 (str "abc") table_aabbbcc (str "11010")).
  - reflexivity.
  - discriminate.
Defined.

(** ** createFrequencyTable *)

Section FrequencyMore.

Import detail.

Lemma unique_copy_strict (l : cstring) :
  StronglySorted char_le l -> StronglySorted char_lt (unique_copy l).
Proof.
  induction 1 as [|x l Hs IH Hall]; [constructor|].
  destruct l as [|y l]; [repeat constructor|].
  change (unique_copy (x :: y :: l))
    with (if char_eqb x y then unique_copy (y :: l) else x :: unique_copy (y :: l)).
  destruct (char_eqb x y) eqn:E; [exact IH|].
  constructor; [exact IH|].
  apply char_eqb_neq in E.
  inversion Hs as [|? ? _ Hy]; subst.
  inversion Hall as [|? ? Hxy _]; subst.
  assert (Hlt : (char_code x < char_code y)%Z).
  { unfold char_le in Hxy. assert (char_code x <> char_code y)
      by (intros Heq; apply E, char_code_inj, Heq). lia. }
  apply Forall_forall. intros z Hz. apply (proj1 (unique_copy_In _ _)) in Hz.
  unfold char_lt. destruct Hz as [<-|Hz]; [exact Hlt|].
  rewrite Forall_forall in Hy. specialize (Hy z Hz). unfold char_le in Hy. lia.
Qed.

Lemma entry_lt_key (p q : size_t * ascii) : entry_lt p q -> fst p <= fst q.
Proof. unfold entry_lt. intros [H|[H _]]; lia. Qed.

(** An entry whose symbol is above all symbols of the table goes to its
    place in the order by count and symbol. *)
Lemma mm_insert_entry_sorted (v : size_t) (c : ascii) (t : multimap) :
  StronglySorted entry_lt t ->
  Forall (fun q => char_lt (snd q) c) t ->
  StronglySorted entry_lt (mm_insert (v, c) t).
Proof.
  induction 1 as [|q t Hs IH Hall]; intros Hc; simpl.
  - repeat constructor.
  - inversion Hc as [|? ? Hq Hc']; subst.
    destruct (N.ltb_spec v (fst q)) as [Hlt|Hge].
    + constructor; [now constructor|].
      constructor; [now left|].
      eapply Forall_impl; [|exact Hall]. intros x Hx. left.
      apply entry_lt_key in Hx. simpl. lia.
    + constructor; [now apply IH|].
      apply (Permutation_Forall (Permutation_sym (mm_insert_perm (v, c) t))).
      constructor; [|exact Hall].
      unfold entry_lt. simpl. destruct (N.eq_dec (fst q) v) as [E|E]; [right|left]; auto.
      lia.
Qed.

Lemma fold_mm_insert_sorted (f : ascii -> size_t) (l : cstring) :
  StronglySorted char_lt l ->
  forall acc,
    StronglySorted entry_lt acc ->
    Forall (fun q => Forall (char_lt (snd q)) l) acc ->
    StronglySorted entry_lt
      (fold_left (fun table c => mm_insert (f c, c) table) l acc).
Proof.
  induction 1 as [|c l Hs IH Hall]; intros acc Hacc Hbelow; simpl; [exact Hacc|].
  apply IH.
  - apply mm_insert_entry_sorted; [exact Hacc|].
    eapply Forall_impl; [|exact Hbelow]. intros q Hq. now inversion Hq.
  - apply (Permutation_Forall (Permutation_sym (mm_insert_perm (f c, c) acc))).
    constructor; [exact Hall|].
    eapply Forall_impl; [|exact Hbelow]. intros q Hq. now inversion Hq.
Qed.

End FrequencyMore.

Lemma frequency_entries (text : cstring) :
  N.of_nat (length text) < SIZE_MAX1 ->
  (forall n c,
      In (n, c) (detail.createFrequencyTable text)
      <-> In c text /\ n = N.of_nat (count_occ ascii_dec text c)) /\
  NoDup (map snd (detail.createFrequencyTable text)).
Proof.
  intros Hlen.
  pose proof (createFrequencyTable_perm text) as Hp.
  assert (Hcount : forall c,
    detail.count (detail.sort text) c = N.of_nat (count_occ ascii_dec text c)).
  { intros c. unfold detail.count, size_of_nat.
    rewrite (proj1 (Permutation_count_occ ascii_dec _ _) (sort_perm text) c).
    apply N.mod_small. pose proof (count_occ_bound ascii_dec c text). lia. }
  split.
  - intros n c. rewrite (Permutation_In_iff (n, c) Hp), in_map_iff. split.
    + intros (c' & E & Hin). injection E as <- ->.
      apply (proj1 (unique_copy_In _ _)) in Hin.
      apply (Permutation_in _ (sort_perm text)) in Hin. split; [exact Hin|].
      apply Hcount.
    + intros [Hin ->]. exists c. split; [now rewrite Hcount|].
      apply unique_copy_In. now apply (Permutation_in _ (Permutation_sym (sort_perm text))).
  - apply (Permutation_NoDup (l := detail.unique_copy (detail.sort text))).
    + rewrite (Permutation_map snd Hp), map_map. simpl. now rewrite map_id.
    + apply unique_copy_NoDup, sort_sorted.
Qed.


(** X9. The frequency table of a text (of a length that fits [size_t]) holds
    exactly one entry per distinct symbol of the text, and the entry of a
    symbol records the number of its occurrences. *)
Theorem createFrequencyTable_entries (text : cstring) :
  N.of_nat (length text) < SIZE_MAX1 ->
  (forall n c,
      In (n, c) (detail.createFrequencyTable text)
      <-> In c text /\ n = N.of_nat (count_occ ascii_dec text c)) /\
  NoDup (map snd (detail.createFrequencyTable text)).
Proof. exact (frequency_entries text). Qed.

Lemma createFrequencyTable_entries_witness :
  (forall n c,
      In (n, c) (detail.createFrequencyTable (str "aabbbcc"))
      <-> In c (str "aabbbcc") /\ n = N.of_nat (count_occ ascii_dec (str "aabbbcc") c)) /\
  NoDup (map snd (detail.createFrequencyTable (str "aabbbcc"))).
Proof.
  apply (createFrequencyTable_entries (str "aabbbcc")). reflexivity.
Defined.

(** X10. The frequency table lists its entries in ascending order of count,
    and entries of equal count in ascending order of symbol. *)
Theorem createFrequencyTable_sorted (text : cstring) :
  StronglySorted entry_lt (detail.createFrequencyTable text).
Proof.
  unfold detail.createFrequencyTable.
  apply fold_mm_insert_sorted.
  - apply unique_copy_strict, sort_sorted.
  - constructor.
  - constructor.
Qed.

(** ** createHuffmanTree *)

Section LeavesMore.

Variable entries : list (ascii * size_t).

Lemma leaf_invariant_merge (l r : Node) (rest : list Node) :
  leaf_invariant entries (l :: r :: rest) ->
  leaf_invariant entries
    (rest ++ [makeInternal " " (size_add (weight l) (weight r)) l r]).
Proof.
  intros [Hfull Hperm].
  inversion Hfull as [|? ? Hl Hfull']; subst. inversion Hfull' as [|? ? Hr Hrest]; subst.
  split.
  - apply Forall_app. split; [exact Hrest|]. constructor; [|constructor].
    now constructor.
  - rewrite <- Hperm. rewrite flat_map_app. cbn [flat_map makeInternal leaves].
    rewrite app_nil_r.
    rewrite (app_assoc (leaves l) (leaves r) (flat_map leaves rest)).
    apply Permutation_app_comm.
Qed.

Lemma leaf_invariant_perm (ws ws' : list Node) :
  Permutation ws ws' -> leaf_invariant entries ws -> leaf_invariant entries ws'.
Proof.
  intros Hp [Hfull Hperm]. split.
  - exact (Permutation_Forall Hp Hfull).
  - rewrite <- Hperm. symmetry. now apply Permutation_flat_map.
Qed.

End LeavesMore.

Lemma huffman_leaves (frequencyTable : multimap) :
  frequencyTable <> [] ->
  exists root,
    detail.createHuffmanTree frequencyTable = Returns root /\
    full root /\
    Permutation (leaves root) (map (fun p => (snd p, fst p)) frequencyTable).
Proof.
  intros Hne.
  destruct (createHuffmanTree_invariant
              (leaf_invariant (map (fun p => (snd p, fst p)) frequencyTable))
              frequencyTable)
    as (root & Hroot & Hfull & Hperm).
  - intros l r rest. apply leaf_invariant_merge.
  - intros ws ws'. apply leaf_invariant_perm.
  - exact Hne.
  - split.
    + apply Forall_forall. intros n Hn. apply in_map_iff in Hn.
      destruct Hn as (p & <- & _). constructor.
    + clear Hne. induction frequencyTable as [|p t IH]; simpl; [reflexivity|].
      now constructor.
  - exists root. split; [exact Hroot|]. split; [now inversion Hfull|].
    simpl in Hperm. now rewrite app_nil_r in Hperm.
Qed.


(** X11. For every non-empty frequency table [createHuffmanTree] returns a
    tree in which every node has no child or two children and whose leaves
    are the entries of the table, each once, with its symbol and weight. *)
Theorem createHuffmanTree_leaves (frequencyTable : multimap) :
  frequencyTable <> [] ->
  exists root,
    detail.createHuffmanTree frequencyTable = Returns root /\
    full root /\
    Permutation (leaves root) (map (fun p => (snd p, fst p)) frequencyTable).
Proof. exact (huffman_leaves frequencyTable). Qed.

Lemma createHuffmanTree_leaves_witness :
  exists root,
    detail.createHuffmanTree [(2, "a"%char); (2, "c"%char); (3, "b"%char)] = Returns root /\
    full root /\
    Permutation (leaves root)
      (map (fun p => (snd p, fst p)) [(2, "a"%char); (2, "c"%char); (3, "b"%char)]).
Proof.
  apply (createHuffmanTree_leaves [(2, "a"%char); (2, "c"%char); (3, "b"%char)]).
  discriminate.
Defined.

(** ** createCodesLengthTable *)

Section LevelsMore.

Import detail.

Lemma mm_insert_append (k : size_t) (c : ascii) (t : multimap) :
  Forall (fun p => fst p <= k) t -> mm_insert (k, c) t = t ++ [(k, c)].
Proof.
  induction 1 as [|q t Hq Ht IH]; simpl; [reflexivity|].
  unfold size_t in *.
  destruct (N.ltb_spec k (fst q)) as [Hlt|_]; [lia|]. f_equal. exact IH.
Qed.

Lemma record_append (h : size_t) (q : list Node) :
  forall table,
    Forall (fun p => fst p <= h) table ->
    fold_left (record h) q table
    = table ++ map (fun c => (h, c)) (flat_map (leaves_at 0) q).
Proof.
  induction q as [|n q IH]; intros table Ht; simpl.
  - now rewrite app_nil_r.
  - unfold record at 2. destruct (left n), (right n); simpl; try (now apply IH).
    rewrite mm_insert_append by assumption. rewrite IH.
    + now rewrite <- app_assoc.
    + apply Forall_app. split; [exact Ht|]. constructor; [simpl; lia|constructor].
Qed.

Lemma leaves_at_children (d : nat) (q : list Node) :
  flat_map (leaves_at (S d)) q = flat_map (leaves_at d) (flat_map children q).
Proof.
  induction q as [|n q IH]; [reflexivity|].
  cbn [flat_map]. rewrite flat_map_app, IH. reflexivity.
Qed.

Lemma level_table_nil (h : N) (D : nat) : level_table h [] D = [].
Proof.
  unfold level_table. induction (seq 0 D) as [|d l IH]; simpl; [reflexivity|exact IH].
Qed.

Lemma flat_map_map_compose {A B C : Type} (f : B -> list C) (g : A -> B) (l : list A) :
  flat_map f (map g l) = flat_map (fun x => f (g x)) l.
Proof. induction l as [|x l IH]; simpl; [reflexivity|]. now rewrite IH. Qed.

Lemma level_table_succ (h : N) (q : list Node) (D : nat) :
  level_table h q (S D)
  = map (fun c => (h, c)) (flat_map (leaves_at 0) q)
    ++ level_table (h + 1) (flat_map children q) D.
Proof.
  unfold level_table.
  change (seq 0 (S D)) with (0%nat :: seq 1 D). cbn [flat_map]. f_equal.
  - apply map_ext. intros c. f_equal. simpl. lia.
  - rewrite <- seq_shift, flat_map_map_compose.
    apply flat_map_ext. intros d.
    rewrite leaves_at_children. apply map_ext. intros c. f_equal. lia.
Qed.

(** The traversal appends the levels one after the other. *)
Lemma levelLoop_levels (D : nat) :
  forall queue height table,
    Forall (fun t => height + tree_height t + 1 < SIZE_MAX1) queue ->
    Forall (fun t => (N.to_nat (tree_height t) < D)%nat) queue ->
    Forall (fun p => fst p <= height) table ->
    levelLoop queue height table = Returns (table ++ level_table height queue D).
Proof.
  induction D as [|D IH]; intros queue height table Hfit Hdepth Htable.
  - destruct queue as [|n q]; [|inversion Hdepth; lia].
    simp levelLoop. now rewrite level_table_nil, app_nil_r.
  - destruct queue as [|n q].
    { simp levelLoop. now rewrite level_table_nil, app_nil_r. }
    assert (Hh : size_add height 1 = height + 1).
    { inversion Hfit; subst. unfold size_add. rewrite N.mod_small; lia. }
    rewrite levelLoop_step, Hh, record_append by assumption.
    rewrite IH.
    + now rewrite level_table_succ, <- app_assoc.
    + apply Forall_forall. intros c Hc. apply in_flat_map in Hc.
      destruct Hc as (t & Ht & Hc). rewrite Forall_forall in Hfit.
      specialize (Hfit t Ht). apply tree_height_children in Hc. lia.
    + apply Forall_forall. intros c Hc. apply in_flat_map in Hc.
      destruct Hc as (t & Ht & Hc). rewrite Forall_forall in Hdepth.
      specialize (Hdepth t Ht). apply tree_height_children in Hc. lia.
    + apply Forall_app. split.
      * eapply Forall_impl; [|exact Htable]. simpl. intros; lia.
      * apply Forall_forall. intros p Hp. apply in_map_iff in Hp.
        destruct Hp as (c & <- & _). simpl. lia.
Qed.

End LevelsMore.

(** X12. For a tree of a height that fits [size_t],
    [createCodesLengthTable] returns the leaves level by level: for each
    depth from 0 to the height of the tree, in ascending order, the symbols
    of the leaves at that depth from left to right, each with that depth. *)
Theorem createCodesLengthTable_level_order (huffmanTree : Node) :
  tree_height huffmanTree + 1 < SIZE_MAX1 ->
  detail.createCodesLengthTable huffmanTree
  = Returns (level_table 0 [huffmanTree] (S (N.to_nat (tree_height huffmanTree)))).
Proof.
  intros Hfit. unfold detail.createCodesLengthTable.
  rewrite (levelLoop_levels (S (N.to_nat (tree_height huffmanTree)))).
  - reflexivity.
  - constructor; [lia|constructor].
  - constructor; [lia|constructor].
  - constructor.
Qed.

Lemma createCodesLengthTable_level_order_witness :
  detail.createCodesLengthTable
    (makeInternal " " 7 (makeLeaf "b" 3)
       (makeInternal " " 4 (makeLeaf "c" 2) (makeLeaf "a" 2)))
  = Returns (level_table 0
      [makeInternal " " 7 (makeLeaf "b" 3)
         (makeInternal " " 4 (makeLeaf "c" 2) (makeLeaf "a" 2))]
      (S (N.to_nat (tree_height
         (makeInternal " " 7 (makeLeaf "b" 3)
            (makeInternal " " 4 (makeLeaf "c" 2) (makeLeaf "a" 2))))))).
Proof.
  apply (createCodesLengthTable_level_order
           (makeInternal " " 7 (makeLeaf "b" 3)
              (makeInternal " " 4 (makeLeaf "c" 2) (makeLeaf "a" 2)))).
  reflexivity.
Defined.

(** ** increment and the assignment of codewords *)

Section AssignMore.

Import detail.

Lemma increment_length (code : cstring) : length (increment code) = length code.
Proof.
  unfold increment.
  rewrite length_rev, length_app, length_map, <- length_app, firstn_skipn.
  apply length_rev.
Qed.

Lemma find_char_absent (c : ascii) (l : cstring) : ~ In c l -> find_char c l = None.
Proof.
  induction l as [|x l IH]; intros H; simpl; [reflexivity|].
  destruct (char_eqb x c) eqn:E.
  - apply char_eqb_eq in E. subst. exfalso. apply H. now left.
  - rewrite IH; [reflexivity|]. intros Hin. apply H. now right.
Qed.

Lemma increment_all_ones (k : nat) :
  increment (repeat "1"%char k) = repeat "0"%char k.
Proof.
  unfold increment. rewrite rev_repeat_char, find_char_absent.
  - rewrite firstn_all, skipn_all, app_nil_r, map_flip_ones. apply rev_repeat_char.
  - intros H. apply repeat_spec in H. discriminate.
Qed.

Lemma val_bound (code : cstring) : val code < 2 ^ N.of_nat (length code).
Proof.
  induction code as [|c code IH]; simpl val; [simpl; lia|].
  cbn [length]. rewrite Nat2N.inj_succ, N.pow_succ_r'.
  unfold bit. destruct (char_eqb c "1"); lia.
Qed.

(** The codewords of the loop have the lengths of the table. *)
Lemma codeList_lengths (rest : multimap) :
  forall previous code c0,
    Sorted key_le ((previous, c0) :: rest) ->
    Forall (fun p => fst p < SIZE_MAX1) rest ->
    N.of_nat (length code) = previous ->
    map (fun e => (N.of_nat (length (snd e)), fst e)) (codeList previous code rest) = rest.
Proof.
  induction rest as [|[len sym] rest IH]; intros previous code c0 Hs Hb Hlen;
    [reflexivity|].
  inversion Hs as [|? ? Hs' Hhd]; subst. inversion Hhd as [|? ? Hle]; subst.
  unfold key_le in Hle. cbn [fst] in Hle.
  inversion Hb as [|? ? Hlt Hb']; subst. cbn [fst] in Hlt.
  cbn [codeList map fst snd].
  assert (Hl : N.of_nat (length (increment code
                 ++ repeat "0"%char (N.to_nat (size_sub len (N.of_nat (length code))))))
               = len).
  { rewrite length_app, repeat_length, increment_length, size_sub_small by lia. lia. }
  rewrite Hl. f_equal. now apply (IH len _ sym).
Qed.

End AssignMore.

(** X13. [increment] is the addition of one on the number a string of '0'
    and '1' denotes, modulo two to the power of its length: the length is
    kept, and a string of '1's only wraps around to the string of '0's. *)
Theorem increment_adds_one (code : cstring) :
  binary code ->
  val (detail.increment code) = (val code + 1) mod 2 ^ N.of_nat (length code) /\
  length (detail.increment code) = length code /\
  binary (detail.increment code).
Proof.
  intros Hb. split; [|split; [apply increment_length|now apply increment_binary]].
  destruct (in_dec ascii_dec "0"%char code) as [Hin|Hno].
  - destruct (last_zero code Hb Hin) as (p & k & ->).
    rewrite increment_carry, val_increment.
    symmetry. apply N.mod_small.
    rewrite <- val_increment.
    replace (length (p ++ "0"%char :: repeat "1"%char k))
      with (length (p ++ "1"%char :: repeat "0"%char k))
      by (rewrite !length_app; simpl; now rewrite !repeat_length).
    apply val_bound.
  - rewrite (binary_all_ones code Hb Hno), increment_all_ones, val_zeros, val_ones.
    rewrite repeat_length. symmetry. apply N.Div0.mod_same.
Qed.

Lemma increment_adds_one_witness :
  val (detail.increment (str "1011")) = (val (str "1011") + 1) mod 2 ^ N.of_nat (length (str "1011")) /\
  length (detail.increment (str "1011")) = length (str "1011") /\
  binary (detail.increment (str "1011")).
Proof.
  apply (increment_adds_one (str "1011")).
  unfold binary, str. simpl. repeat (apply Forall_cons; [auto|]). apply Forall_nil.
Defined.

Lemma assignment_lengths (lengthsTable : multimap) :
  lengthsTable <> [] ->
  Sorted key_le lengthsTable ->
  Forall (fun p => fst p < SIZE_MAX1) lengthsTable ->
  exists table,
    detail.createEncodingTable lengthsTable = Returns table /\
    (forall c, In c (map snd lengthsTable) -> map_find c table <> None) /\
    (forall c w, In (c, w) table -> In (N.of_nat (length w), c) lengthsTable).
Proof.
  intros Hne Hs Hb. destruct lengthsTable as [|[len0 sym0] rest]; [congruence|].
  inversion Hb as [|? ? Hlen0 Hb']; subst.
  cbn [detail.createEncodingTable fst snd].
  eexists. split; [reflexivity|]. split.
  - intros c Hc. apply assignCodes_defined. destruct Hc as [E|Hin]; [|now left].
    right. cbn [snd] in E. subst c. rewrite map_find_set_same. discriminate.
  - intros c w Hin. apply assignCodes_In in Hin. destruct Hin as [Hin|[E|[]]].
    + right.
      rewrite <- (codeList_lengths rest len0 (repeat "0"%char (N.to_nat len0)) sym0 Hs Hb')
        by (rewrite repeat_length; apply N2Nat.id).
      apply in_map_iff. now exists (c, w).
    + left. injection E as <- <-. rewrite repeat_length, N2Nat.id. reflexivity.
Qed.



(** ** createEncodingTable (from a text) *)

Lemma codeword_depths (text : cstring) :
  text <> [] ->
  exists root table,
    detail.createHuffmanTree (detail.createFrequencyTable text) = Returns root /\
    createEncodingTable text = Returns table /\
    (forall c w, map_find c table = Some w ->
                 In (N.of_nat (length w), c) (leaf_depths 0 root)).
Proof.
  intros Hne. unfold createEncodingTable.
  destruct (createHuffmanTree_shape text Hne) as (root & Hroot & Hfull & Hsyms & Hheight).
  exists root. rewrite Hroot. cbn [bind]. unfold detail.createCodesLengthTable.
  destruct (levelLoop_spec [root] 0 []) as (lengths & Hloop & Hperm & Hsorted).
  { constructor; [|constructor]. unfold SIZE_MAX1. simpl (2 ^ 64). lia. }
  rewrite Hloop. cbn [bind].
  cbn [flat_map app] in Hperm. rewrite app_nil_r in Hperm.
  destruct (assignment_lengths lengths) as (table & Htable & _ & Hlen).
  - intros ->. apply Permutation_nil in Hperm.
    destruct text as [|c text]; [congruence|].
    assert (Hc : In c (leaf_symbols root)) by (apply Hsyms; now left).
    rewrite <- (leaf_depths_symbols root Hfull 0), Hperm in Hc. contradiction.
  - apply Hsorted. constructor.
  - apply (Permutation_Forall (Permutation_sym Hperm)).
    eapply Forall_impl; [|exact (leaf_depths_bound root Hfull 0)].
    intros p Hp. cbn beta in Hp. unfold SIZE_MAX1. simpl (2 ^ 64). lia.
  - exists table. split; [reflexivity|]. split; [exact Htable|].
    intros c w Hw. apply map_find_In in Hw.
    apply (Permutation_in _ Hperm). now apply Hlen.
Qed.


(** X15. In the table [createEncodingTable] returns for a non-empty text the
    length of the codeword of a symbol is the depth of the leaf of that
    symbol in the tree [createHuffmanTree] builds from the frequency table
    of the text. *)
Theorem codeword_length_is_leaf_depth (text : cstring) :
  text <> [] ->
  exists root table,
    detail.createHuffmanTree (detail.createFrequencyTable text) = Returns root /\
    createEncodingTable text = Returns table /\
    (forall c w, map_find c table = Some w ->
                 In (N.of_nat (length w), c) (leaf_depths 0 root)).
Proof. exact (codeword_depths text). Qed.

Lemma codeword_length_is_leaf_depth_witness :
  exists root table,
    detail.createHuffmanTree (detail.createFrequencyTable (str "aabbbcc")) = Returns root /\
    createEncodingTable (str "aabbbcc") = Returns table /\
    (forall c w, map_find c table = Some w ->
                 In (N.of_nat (length w), c) (leaf_depths 0 root)).
Proof.
  apply (codeword_length_is_leaf_depth (str "aabbbcc")). discriminate.
Defined.

(** X16. The table [createEncodingTable] returns for a non-empty text has a
    codeword for the symbols of the text and for no other character; every
    codeword is a string of '0' and '1'; and when the text has two distinct
    symbols no codeword is empty. *)
Theorem createEncodingTable_codewords (text : cstring) :
  text <> [] ->
  exists table,
    createEncodingTable text = Returns table /\
    (forall c, In c (map fst table) <-> In c text) /\
    (forall c w, In (c, w) table -> binary w) /\
    ((exists a b, In a text /\ In b text /\ a <> b) ->
     forall c w, In (c, w) table -> w <> []).
Proof.
  intros Hne.
  destruct (createEncodingTable_structure text Hne)
    as (table & Htable & Hdef & Hentries & Hdiv).
  exists table. split; [exact Htable|]. split; [|split].
  - intros c. split.
    + intros Hc. apply in_map_iff in Hc. destruct Hc as ([k w] & <- & Hin).
      now apply (Hentries k w).
    + intros Hc. destruct (map_find c table) as [w|] eqn:E; [|now apply Hdef in Hc].
      apply map_find_In in E. apply in_map_iff. now exists (c, w).
  - intros c w Hin. now apply (Hentries c w).
  - intros (a & b & Ha & Hb & Hab) k w Hk.
    assert (Hother : exists k' w', In (k', w') table /\ k' <> k).
    { destruct (ascii_dec k a) as [->|Hka].
      - destruct (map_find b table) as [wb|] eqn:E; [|now apply Hdef in Hb].
        exists b, wb. split; [now apply map_find_In|congruence].
      - destruct (map_find a table) as [wa|] eqn:E; [|now apply Hdef in Ha].
        exists a, wa. split; [now apply map_find_In|congruence]. }
    destruct Hother as (k' & w' & Hk' & Hkk').
    destruct (Hdiv k k' w w' Hk Hk') as [E|[Hd|Hd]]; [congruence| |];
      apply diverge_nonempty in Hd; tauto.
Qed.

Lemma createEncodingTable_codewords_witness :
  exists table,
    createEncodingTable (str "aabbbcc") = Returns table /\
    (forall c, In c (map fst table) <-> In c (str "aabbbcc")) /\
    (forall c w, In (c, w) table -> binary w) /\
    ((exists a b, In a (str "aabbbcc") /\ In b (str "aabbbcc") /\ a <> b) ->
     forall c w, In (c, w) table -> w <> []).
Proof.
  apply (createEncodingTable_codewords (str "aabbbcc")). discriminate.
Defined.

(** ** Optimality of the tree *)

Section Exchange.

Lemma cost_perm (A A' : assignment) : Permutation A A' -> cost A = cost A'.
Proof. induction 1; simpl; lia. Qed.

Lemma cost_app (A A' : assignment) : cost (A ++ A') = cost A + cost A'.
Proof. induction A as [|p A IH]; simpl; lia. Qed.

Lemma ksum_perm (D : N) (ds ds' : list N) : Permutation ds ds' -> ksum D ds = ksum D ds'.
Proof. induction 1; simpl; lia. Qed.

Lemma ksum_app (D : N) (ds ds' : list N) : ksum D (ds ++ ds') = ksum D ds + ksum D ds'.
Proof. induction ds as [|d ds IH]; simpl; lia. Qed.

Lemma kraft_le_perm (ds ds' : list N) : Permutation ds ds' -> kraft_le ds -> kraft_le ds'.
Proof.
  intros Hp (D & Hb & Hk). exists D. split.
  - exact (Permutation_Forall Hp Hb).
  - now rewrite <- (ksum_perm D _ _ Hp).
Qed.

Lemma ksum_scale (D E : N) (ds : list N) :
  E <= D -> Forall (fun d => d <= E) ds -> ksum D ds = 2 ^ (D - E) * ksum E ds.
Proof.
  intros HE. induction 1 as [|d ds Hd Hds IH]; simpl; [lia|].
  rewrite IH. replace (D - d) with ((D - E) + (E - d)) by lia.
  rewrite N.pow_add_r. lia.
Qed.

(** The lightest element can take the greatest depth at no cost: its depth
    is exchanged with greater depths further down the list. *)
Lemma deepen (B : assignment) :
  forall w d,
    Forall (fun p => w <= fst p) B ->
    exists d' B',
      map fst B' = map fst B /\
      Permutation (d' :: map snd B') (d :: map snd B) /\
      Forall (fun p => snd p <= d') B' /\
      cost ((w, d') :: B') <= cost ((w, d) :: B).
Proof.
  induction B as [|[x dx] B IH]; intros w d Hw.
  - exists d, []. repeat split; auto. simpl. lia.
  - inversion Hw as [|? ? Hx Hw']; subst. cbn [fst] in Hx.
    destruct (IH w d Hw') as (d1 & B1 & Hfst & Hperm & Hmax & Hcost).
    destruct (N.le_gt_cases dx d1) as [Hle|Hgt].
    + exists d1, ((x, dx) :: B1). repeat split.
      * simpl. now rewrite Hfst.
      * simpl. rewrite perm_swap, Hperm. apply perm_swap.
      * constructor; [exact Hle|exact Hmax].
      * simpl in *. lia.
    + exists dx, ((x, d1) :: B1). repeat split.
      * simpl. now rewrite Hfst.
      * simpl. rewrite Hperm. apply perm_swap.
      * constructor; [simpl; lia|].
        eapply Forall_impl; [|exact Hmax]. simpl. intros; lia.
      * simpl in *. nia.
Qed.

(** Two elements at the two greatest depths can be merged into one of their
    summed weight, one level up, within Kraft's inequality. *)
Lemma merge_deepest (a b da db : N) (A : assignment) :
  db <= da ->
  Forall (fun p => snd p <= db) A ->
  kraft_le (da :: db :: map snd A) ->
  1 <= db /\ kraft_le ((db - 1) :: map snd A) /\
  cost ((a + b, db - 1) :: A) + a + b <= cost ((a, da) :: (b, db) :: A).
Proof.
  intros Hdb Hmax (D & Hb & Hk).
  inversion Hb as [|? ? HdaD Hb']; subst. inversion Hb' as [|? ? HdbD Hb'']; subst.
  cbn [ksum fold_right] in Hk. fold (ksum D (map snd A)) in Hk.
  assert (Hdepths : Forall (fun d => d <= db) (map snd A)).
  { apply Forall_forall. intros d Hd. apply in_map_iff in Hd.
    destruct Hd as (p & <- & Hp). rewrite Forall_forall in Hmax. now apply Hmax. }
  rewrite (ksum_scale D db (map snd A) HdbD Hdepths) in Hk.
  set (M := 2 ^ (D - db)) in *. set (k := ksum db (map snd A)) in *.
  assert (HM : 0 < M) by (apply N.neq_0_lt_0, N.pow_nonzero; lia).
  assert (HP : 0 < 2 ^ (D - da)) by (apply N.neq_0_lt_0, N.pow_nonzero; lia).
  assert (HD : 2 ^ D = M * 2 ^ db).
  { unfold M. rewrite <- N.pow_add_r. f_equal. lia. }
  assert (Hroom : 1 + k < 2 ^ db).
  { apply (N.mul_lt_mono_pos_l M); [exact HM|]. lia. }
  assert (H1 : 1 <= db).
  { destruct (N.eq_dec db 0) as [E|E]; [|lia]. rewrite E in Hroom.
    change (2 ^ 0) with 1 in Hroom. lia. }
  split; [exact H1|]. split.
  - exists D. split.
    + constructor; [lia|exact Hb''].
    + cbn [ksum fold_right]. fold (ksum D (map snd A)).
      rewrite (ksum_scale D db (map snd A) HdbD Hdepths). fold M. fold k.
      replace (D - (db - 1)) with (N.succ (D - db)) by lia.
      rewrite N.pow_succ_r', HD. fold M.
      assert (M * (2 + k) <= M * 2 ^ db) by (apply N.mul_le_mono_l; lia). lia.
  - cbn [cost fold_right fst snd]. fold (cost A). nia.
Qed.

(** The exchange step of Huffman's argument on code lengths: lengths for
    weights whose two lightest are [a] and [b] give lengths for the weights
    with [a] and [b] replaced by [a + b], cheaper by [a + b]. *)
Lemma exchange (a b : N) (R : list N) (A : assignment) :
  a <= b -> Forall (fun x => b <= x) R ->
  Permutation (map fst A) (a :: b :: R) ->
  kraft_le (map snd A) ->
  exists A',
    map fst A' = (a + b) :: R /\
    kraft_le (map snd A') /\
    cost A' + a + b <= cost A.
Proof.
  intros Hab HbR Hperm Hkraft.
  apply Permutation_sym, Permutation_map_inv in Hperm.
  destruct Hperm as (A0 & Hfst & HA).
  destruct A0 as [|[a0 da] [|[b0 db] AR]]; try discriminate.
  injection Hfst as <- <- HR.
  rewrite (cost_perm _ _ HA).
  apply (kraft_le_perm _ _ (Permutation_map snd HA)) in Hkraft.
  cbn [map snd] in Hkraft.
  destruct (deepen ((b, db) :: AR) a da) as (da' & B1 & Hf1 & Hp1 & Hm1 & Hc1).
  { constructor; [exact Hab|]. apply Forall_forall. intros p Hp.
    rewrite Forall_forall in HbR. assert (In (fst p) R) by (rewrite HR; now apply in_map).
    specialize (HbR _ H). lia. }
  destruct B1 as [|[b1 db1] AR1]; [discriminate|].
  cbn [map fst] in Hf1. injection Hf1 as -> Hf1.
  destruct (deepen AR1 b db1) as (db' & AR2 & Hf2 & Hp2 & Hm2 & Hc2).
  { apply Forall_forall. intros p Hp. rewrite Forall_forall in HbR.
    apply HbR. rewrite HR, <- Hf1. now apply in_map. }
  assert (Hdb' : db' <= da').
  { assert (Hin : In db' (db1 :: map snd AR1))
      by (apply (Permutation_in _ Hp2); now left).
    inversion Hm1 as [|? ? H1 H2]; subst. destruct Hin as [<-|Hin]; [exact H1|].
    apply in_map_iff in Hin. destruct Hin as (p & <- & Hp).
    rewrite Forall_forall in H2. now apply H2. }
  destruct (merge_deepest a b da' db' AR2 Hdb' Hm2) as (H1 & Hk & Hc3).
  { apply (kraft_le_perm (da :: db :: map snd AR)); [|exact Hkraft].
    cbn [map snd] in Hp1. rewrite <- Hp1. constructor. now symmetry. }
  exists ((a + b, db' - 1) :: AR2). split; [|split].
  - cbn [map fst]. now rewrite Hf2, Hf1, HR.
  - exact Hk.
  - cbn [cost fold_right fst snd] in *. fold (cost AR) (cost AR1) (cost AR2) in *. lia.
Qed.

End Exchange.

Section Optimality.

Import detail.

Lemma additive_full (t : Node) : additive t -> full t.
Proof. induction 1; now constructor. Qed.

Lemma weight_sum_app (A A' : assignment) :
  weight_sum (A ++ A') = weight_sum A + weight_sum A'.
Proof. induction A as [|p A IH]; simpl; lia. Qed.

Lemma weight_depths_shift (t : Node) :
  full t ->
  forall h k,
    cost (weight_depths (h + k) t)
    = cost (weight_depths h t) + k * weight_sum (weight_depths h t) /\
    weight_sum (weight_depths (h + k) t) = weight_sum (weight_depths h t).
Proof.
  induction 1 as [p|p l r Hl IHl Hr IHr]; intros h k.
  - simpl. split; lia.
  - cbn [weight_depths]. rewrite !cost_app, !weight_sum_app.
    replace (h + k + 1) with (h + 1 + k) by lia.
    destruct (IHl (h + 1) k) as [-> ->]. destruct (IHr (h + 1) k) as [-> ->].
    split; lia.
Qed.

Lemma additive_weight_sum (t : Node) :
  additive t -> forall h, weight_sum (weight_depths h t) = weight t.
Proof.
  induction 1 as [p|c l r Hl IHl Hr IHr]; intros h.
  - simpl. unfold weight. simpl. lia.
  - cbn [weight_depths]. rewrite weight_sum_app, IHl, IHr. reflexivity.
Qed.

Lemma wpl_internal (p : ascii * size_t) (l r : Node) :
  additive l -> additive r ->
  wpl (mkNode p (Some l) (Some r)) = wpl l + wpl r + weight l + weight r.
Proof.
  intros Hl Hr. unfold wpl. cbn [weight_depths]. rewrite cost_app.
  destruct (weight_depths_shift l (additive_full l Hl) 0 1) as [El _].
  destruct (weight_depths_shift r (additive_full r Hr) 0 1) as [Er _].
  rewrite El, Er.
  rewrite (additive_weight_sum l Hl), (additive_weight_sum r Hr). lia.
Qed.

Lemma forest_wpl_perm (ws ws' : list Node) :
  Permutation ws ws' -> forest_wpl ws = forest_wpl ws'.
Proof. induction 1; simpl; lia. Qed.

Lemma forest_wpl_app (ws ws' : list Node) :
  forest_wpl (ws ++ ws') = forest_wpl ws + forest_wpl ws'.
Proof. induction ws as [|n ws IH]; simpl; lia. Qed.

Lemma total_weight_map (ws : list Node) :
  total_weight ws = fold_right N.add 0 (map weight ws).
Proof. induction ws as [|n ws IH]; simpl; [reflexivity|]. now rewrite IH. Qed.

(** The two nodes an iteration takes out are the two lightest. *)
Lemma mergeStep_minima (weights : list Node) :
  (1 < length weights)%nat ->
  exists l r rest,
    mergeStep weights
      = Returns (rest ++ [makeInternal " " (size_add (weight l) (weight r)) l r]) /\
    Permutation weights (l :: r :: rest) /\
    weight l <= weight r /\
    Forall (fun t => weight r <= weight t) rest.
Proof.
  intros Hsize.
  destruct (extractMinimum_spec weights) as (b1 & l & a1 & Heq1 & [Hb1 Ha1] & Hex1).
  { intros ->. simpl in Hsize. lia. }
  destruct (extractMinimum_spec (b1 ++ a1)) as (b2 & r & a2 & Heq2 & [Hb2 Ha2] & Hex2).
  { intros H. rewrite Heq1, length_app in Hsize. simpl in Hsize.
    apply (f_equal (@length Node)) in H. rewrite length_app in H. simpl in H. lia. }
  exists l, r, (b2 ++ a2). split; [|split; [|split]].
  - unfold mergeStep. rewrite Hex1, Hex2. reflexivity.
  - rewrite Heq1. rewrite <- Permutation_middle. constructor.
    rewrite Heq2. now rewrite <- Permutation_middle.
  - assert (Hr : In r (b1 ++ a1)) by (rewrite Heq2; apply in_elt).
    rewrite Forall_forall in Hb1, Ha1. apply in_app_or in Hr.
    destruct Hr as [Hr|Hr]; [now apply Hb1|]. specialize (Ha1 r Hr). lia.
  - apply Forall_app. split; [exact Hb2|].
    eapply Forall_impl; [|exact Ha2]. simpl. intros; lia.
Qed.

Lemma mergeLoop_unfold (weights merged : list Node) :
  (1 < length weights)%nat ->
  mergeStep weights = Returns merged ->
  mergeLoop weights = mergeLoop merged.
Proof.
  intros Hlen Hmerged. funelim (mergeLoop weights);
    try match goal with
        | E : (1 <? length _)%nat = false |- _ =>
            pose proof (proj1 (Nat.ltb_ge _ _) E); lia
        end;
    congruence.
Qed.

Lemma mergeLoop_single (root : Node) : mergeLoop [root] = Returns [root].
Proof. now simp mergeLoop. Qed.

(** The tree the loop ends with costs no more, beyond the trees it started
    from, than any assignment of depths to their roots that satisfies
    Kraft's inequality. *)
Lemma mergeLoop_optimal (n : nat) :
  forall weights,
    length weights = n ->
    weights <> [] ->
    Forall additive weights ->
    total_weight weights < SIZE_MAX1 ->
    exists root,
      mergeLoop weights = Returns [root] /\
      forall A,
        Permutation (map fst A) (map weight weights) ->
        kraft_le (map snd A) ->
        wpl root <= forest_wpl weights + cost A.
Proof.
  induction n as [n IH] using lt_wf_ind. intros weights Hn Hne Hadd Htot.
  destruct weights as [|t [|t' weights']]; [congruence| |].
  - exists t. split; [apply mergeLoop_single|]. intros A _ _. simpl. lia.
  - set (ws := t :: t' :: weights') in *.
    assert (Hsize : (1 < length ws)%nat) by (simpl; lia).
    destruct (mergeStep_minima ws Hsize) as (l & r & rest & Hstep & Hperm & Hlr & Hrest).
    assert (Hadd' : Forall additive (l :: r :: rest)) by exact (Permutation_Forall Hperm Hadd).
    inversion Hadd' as [|? ? Hl Hadd'']; subst. inversion Hadd'' as [|? ? Hr Hrest_add]; subst.
    assert (Htot' : weight l + (weight r + total_weight rest) = total_weight ws)
      by (rewrite (total_weight_perm _ _ Hperm); reflexivity).
    assert (Hsum : size_add (weight l) (weight r) = weight l + weight r)
      by (unfold size_add; rewrite N.mod_small; lia).
    rewrite Hsum in Hstep.
    set (node := makeInternal " " (weight l + weight r) l r) in *.
    rewrite (mergeLoop_unfold ws (rest ++ [node]) Hsize Hstep).
    destruct (IH (length (rest ++ [node]))) with (weights := rest ++ [node])
      as (root & Hroot & Hopt).
    + apply Permutation_length in Hperm. rewrite length_app. simpl in *. lia.
    + reflexivity.
    + destruct rest; discriminate.
    + apply Forall_app. split; [exact Hrest_add|].
      constructor; [|constructor]. now constructor.
    + rewrite total_weight_app.
      change (total_weight [node]) with (weight l + weight r + 0). lia.
    + exists root. split; [exact Hroot|]. intros A HA Hk.
      destruct (exchange (weight l) (weight r) (map weight rest) A Hlr) as (A' & HA' & Hk' & Hc).
      * apply Forall_forall. intros x Hx. apply in_map_iff in Hx.
        destruct Hx as (y & <- & Hy). rewrite Forall_forall in Hrest. now apply Hrest.
      * rewrite HA. exact (Permutation_map weight Hperm).
      * exact Hk.
      * assert (HP : Permutation (map fst A') (map weight (rest ++ [node]))).
        { unfold size_t in *. rewrite HA', map_app. apply Permutation_cons_append. }
        specialize (Hopt A' HP Hk').
        rewrite forest_wpl_app in Hopt.
        change (forest_wpl [node]) with (wpl node + 0) in Hopt.
        unfold node, makeInternal in Hopt. rewrite (wpl_internal _ l r Hl Hr) in Hopt.
        rewrite (forest_wpl_perm _ _ Hperm).
        change (forest_wpl (l :: r :: rest)) with (wpl l + (wpl r + forest_wpl rest)).
        lia.
Qed.

End Optimality.

Lemma kraft_weight_depths (t : Node) :
  full t ->
  forall h D,
    h + tree_height t <= D ->
    Forall (fun d => d <= D) (map snd (weight_depths h t)) /\
    ksum D (map snd (weight_depths h t)) = 2 ^ (D - h).
Proof.
  induction 1 as [p|p l r Hl IHl Hr IHr]; intros h D Hh.
  - simpl in *. split; [constructor; [lia|constructor]|lia].
  - cbn [weight_depths tree_height] in *. rewrite map_app, ksum_app.
    destruct (IHl (h + 1) D) as [Hbl ->]; [lia|].
    destruct (IHr (h + 1) D) as [Hbr ->]; [lia|].
    split; [apply Forall_app; now split|].
    replace (D - h) with (N.succ (D - (h + 1))) by lia.
    rewrite N.pow_succ_r'. lia.
Qed.

(** X17. Optimality of the tree. For a non-empty frequency table whose
    weights sum to less than 2^64, the weighted path length of the tree
    [createHuffmanTree] returns (the sum over its leaves of weight times
    depth) is at most the cost of any assignment of code lengths to the
    weights of the table that satisfies Kraft's inequality; in particular it
    is at most the weighted path length of any tree over the same weights
    whose nodes have no child or two. *)
Theorem createHuffmanTree_optimal (frequencyTable : multimap) :
  frequencyTable <> [] ->
  table_weight frequencyTable < SIZE_MAX1 ->
  exists root,
    detail.createHuffmanTree frequencyTable = Returns root /\
    (forall A : assignment,
        Permutation (map fst A) (map fst frequencyTable) ->
        kraft_le (map snd A) ->
        wpl root <= cost A) /\
    (forall other,
        full other ->
        Permutation (map fst (weight_depths 0 other)) (map fst frequencyTable) ->
        wpl root <= wpl other).
Proof.
  intros Hne Hfit.
  set (ws := map (fun p => makeLeaf (snd p) (fst p)) frequencyTable).
  assert (Hw : map weight ws = map fst frequencyTable).
  { unfold ws. rewrite map_map. apply map_ext. reflexivity. }
  assert (Hzero : forest_wpl ws = 0).
  { unfold ws. clear. induction frequencyTable as [|p t IH]; [reflexivity|].
    simpl. rewrite IH. unfold wpl. simpl. lia. }
  destruct (mergeLoop_optimal (length ws) ws eq_refl) as (root & Hloop & Hopt).
  - unfold ws. destruct frequencyTable; [congruence|discriminate].
  - apply Forall_forall. intros n Hn. apply in_map_iff in Hn.
    destruct Hn as (p & <- & _). constructor.
  - unfold ws. now rewrite total_weight_leaves.
  - assert (Hkraft : forall A : assignment,
      Permutation (map fst A) (map fst frequencyTable) ->
      kraft_le (map snd A) -> wpl root <= cost A).
    { intros A HA Hk. rewrite <- Hw in HA. specialize (Hopt A HA Hk). lia. }
    exists root. split; [|split; [exact Hkraft|]].
    + unfold detail.createHuffmanTree. fold ws. rewrite Hloop. reflexivity.
    + intros other Hfull Hperm. apply Hkraft; [exact Hperm|].
      exists (tree_height other).
      destruct (kraft_weight_depths other Hfull 0 (tree_height other)) as [Hb Hk]; [lia|].
      split; [exact Hb|]. rewrite Hk. apply N.pow_le_mono_r; lia.
Qed.

Lemma createHuffmanTree_optimal_witness :
  exists root,
    detail.createHuffmanTree [(2, "a"%char); (2, "c"%char); (3, "b"%char)] = Returns root /\
    (forall A : assignment,
        Permutation (map fst A) (map fst [(2, "a"%char); (2, "c"%char); (3, "b"%char)]) ->
        kraft_le (map snd A) ->
        wpl root <= cost A) /\
    (forall other,
        full other ->
        Permutation (map fst (weight_depths 0 other))
                    (map fst [(2, "a"%char); (2, "c"%char); (3, "b"%char)]) ->
        wpl root <= wpl other).
Proof.
  apply (createHuffmanTree_optimal [(2, "a"%char); (2, "c"%char); (3, "b"%char)]).
  - discriminate.
  - reflexivity.
Defined.

(** ** The length of the encoded text *)

Section EncodedLength.

Lemma leaf_records_views (t : Node) :
  full t ->
  forall h,
    weight_depths h t = map (fun x => (snd (fst x), snd x)) (leaf_records h t) /\
    leaf_depths h t = map (fun x => (snd x, fst (fst x))) (leaf_records h t) /\
    leaves t = map fst (leaf_records h t).
Proof.
  induction 1 as [p|p l r Hl IHl Hr IHr]; intros h.
  - simpl. destruct p. repeat split.
  - cbn [weight_depths leaf_depths leaves leaf_records]. rewrite !map_app.
    destruct (IHl (h + 1)) as (-> & -> & ->). destruct (IHr (h + 1)) as (-> & -> & ->).
    repeat split.
Qed.

Lemma leaves_symbols (t : Node) : full t -> map fst (leaves t) = leaf_symbols t.
Proof.
  induction 1 as [p|p l r Hl IHl Hr IHr]; [reflexivity|].
  cbn [leaves leaf_symbols]. now rewrite map_app, IHl, IHr.
Qed.

(** A sum over the characters of a text, grouped by symbol. *)
Lemma sum_by_symbol (g : ascii -> nat) (alphabet text : cstring) :
  NoDup alphabet -> (forall x, In x text -> In x alphabet) ->
  list_sum (map g text)
  = list_sum (map (fun c => count_occ ascii_dec text c * g c)%nat alphabet).
Proof.
  intros Hnd. induction text as [|x text IH]; intros Hcov.
  - simpl. clear. induction alphabet as [|a al IHal]; [reflexivity|exact IHal].
  - assert (Hone : forall al, NoDup al -> In x al ->
      list_sum (map (fun c => (if ascii_dec x c then 1 else 0) * g c)%nat al) = g x).
    { clear. induction 1 as [|a al Hnin Hnd IH]; intros Hin; [contradiction|].
      cbn [map list_sum fold_right]. fold (list_sum (map (fun c => (if ascii_dec x c then 1 else 0) * g c)%nat al)).
      destruct (ascii_dec x a) as [->|Hne].
      - assert (list_sum (map (fun c => (if ascii_dec a c then 1 else 0) * g c)%nat al) = 0%nat)
          as ->; [|lia].
        clear IH Hin Hnd. induction al as [|b l IHl]; [reflexivity|].
        cbn [map list_sum fold_right].
        destruct (ascii_dec a b) as [->|_]; [exfalso; apply Hnin; now left|].
        simpl. apply IHl. intros H. apply Hnin. now right.
      - destruct Hin as [->|Hin]; [congruence|]. rewrite IH by assumption. lia. }
    assert (Hsplit : forall al,
      list_sum (map (fun c => count_occ ascii_dec (x :: text) c * g c)%nat al)
      = (list_sum (map (fun c => (if ascii_dec x c then 1 else 0) * g c) al)
         + list_sum (map (fun c => count_occ ascii_dec text c * g c) al))%nat).
    { unfold list_sum. induction al as [|a al IHal]; [reflexivity|].
      cbn [map fold_right]. rewrite IHal. simpl.
      destruct (ascii_dec x a); lia. }
    rewrite Hsplit, Hone, <- IH; try assumption.
    + reflexivity.
    + intros y Hy. apply Hcov. now right.
    + apply Hcov. now left.
Qed.

Lemma cost_of_records (g : ascii -> nat) (L : list (ascii * N * N)) :
  Forall (fun x => snd (fst x) * snd x = N.of_nat (g (fst (fst x)))) L ->
  cost (map (fun x => (snd (fst x), snd x)) L)
  = N.of_nat (list_sum (map g (map (fun x => fst (fst x)) L))).
Proof.
  induction 1 as [|x L Hx HL IH]; [reflexivity|].
  cbn [map cost fold_right list_sum fst snd].
  fold (cost (map (fun x => (snd (fst x), snd x)) L)).
  fold (list_sum (map g (map (fun x => fst (fst x)) L))).
  rewrite IH, Hx. lia.
Qed.

End EncodedLength.

Lemma NoDup_snd_functional {A B : Type} (l : list (A * B)) (x y : A) (k : B) :
  NoDup (map snd l) -> In (x, k) l -> In (y, k) l -> x = y.
Proof.
  induction l as [|[x0 k0] l IH]; intros Hnd Hx Hy; [contradiction|].
  simpl in Hnd. inversion Hnd as [|? ? Hnin Hnd']; subst.
  destruct Hx as [Ex|Hx], Hy as [Ey|Hy].
  - congruence.
  - injection Ex as -> ->. exfalso. apply Hnin.
    apply in_map_iff. now exists (y, k).
  - injection Ey as -> ->. exfalso. apply Hnin.
    apply in_map_iff. now exists (x, k).
  - now apply IH.
Qed.

(** With its own table, [encode] writes the codewords of the symbols of the
    text one after the other. *)
Lemma encode_own_table (text : cstring) (a b : ascii) (fuel : nat) :
  In a text -> In b text -> a <> b ->
  ~ In "0"%char text -> ~ In "1"%char text ->
  (length text <= fuel)%nat ->
  exists table,
    createEncodingTable text = Returns table /\
    encode fuel text table = Returns (flat_map (substitute table) text).
Proof.
  intros Ha Hb Hab Hno0 Hno1 Hfuel.
  assert (Hne : text <> []) by (intros ->; contradiction).
  destruct (createEncodingTable_structure text Hne)
    as (table & Htable & Hdef & Hentries & Hdiv).
  exists table. split; [exact Htable|].
  apply encodeLoop_spec; try assumption.
  - intros k w Hk.
    assert (Hother : exists k' w', In (k', w') table /\ k' <> k).
    { destruct (ascii_dec k a) as [->|Hka].
      - destruct (map_find b table) as [wb|] eqn:E; [|now apply Hdef in Hb].
        exists b, wb. split; [now apply map_find_In|congruence].
      - destruct (map_find a table) as [wa|] eqn:E; [|now apply Hdef in Ha].
        exists a, wa. split; [now apply map_find_In|congruence]. }
    destruct Hother as (k' & w' & Hk' & Hkk').
    destruct (Hdiv k k' w w' Hk Hk') as [E|[Hd|Hd]]; [congruence| |];
      apply diverge_nonempty in Hd; tauto.
  - intros c code k Hc Hk Hin. apply in_map_iff in Hk.
    destruct Hk as ([k' w'] & <- & Hk'). cbn [fst] in Hin.
    destruct (Hentries c code Hc) as [_ Hbin].
    destruct (Hentries k' w' Hk') as [Hk'text _].
    unfold binary in Hbin. rewrite Forall_forall in Hbin.
    destruct (Hbin k' Hin) as [-> | ->]; contradiction.
  - intros k _. etransitivity; [apply count_occ_bound|exact Hfuel].
Qed.

(** X18. For a text with two distinct symbols, without the characters '0'
    and '1' and of a length that fits [size_t], the number of characters
    [encode] writes with the table of the text is the weighted path length
    of the tree built from the frequency table of the text (which X17 shows
    minimal). *)
Theorem encoded_length_is_weighted_path_length
    (text : cstring) (a b : ascii) (fuel : nat) :
  In a text -> In b text -> a <> b ->
  ~ In "0"%char text -> ~ In "1"%char text ->
  (length text <= fuel)%nat ->
  N.of_nat (length text) < SIZE_MAX1 ->
  exists root table bits,
    detail.createHuffmanTree (detail.createFrequencyTable text) = Returns root /\
    createEncodingTable text = Returns table /\
    encode fuel text table = Returns bits /\
    N.of_nat (length bits) = wpl root.
Proof.
  intros Ha Hb Hab Hno0 Hno1 Hfuel Hlen.
  assert (Hne : text <> []) by (intros ->; contradiction).
  set (ft := detail.createFrequencyTable text).
  destruct (codeword_depths text Hne) as (root & table & Hroot & Htable & Hdepth).
  destruct (encode_own_table text a b fuel Ha Hb Hab Hno0 Hno1 Hfuel)
    as (table' & Htable' & Hencode).
  assert (table' = table) by congruence. subst table'.
  destruct (createEncodingTable_structure text Hne) as (table' & Htable'' & Hdef & _).
  assert (table' = table) by congruence. subst table'.
  destruct (createHuffmanTree_shape text Hne) as (root' & Hroot' & Hfull & Hsyms & _).
  assert (root' = root) by (fold ft in Hroot, Hroot'; congruence). subst root'.
  destruct (huffman_leaves ft (createFrequencyTable_nonempty text Hne))
    as (root' & Hroot'' & _ & Hleaves).
  assert (root' = root) by (fold ft in Hroot; congruence). subst root'.
  destruct (frequency_entries text Hlen) as [Hentries Hnodup]. fold ft in Hentries, Hnodup.
  exists root, table, (flat_map (substitute table) text).
  split; [exact Hroot|]. split; [exact Htable|]. split; [exact Hencode|].
  assert (Hnd : NoDup (leaf_symbols root)).
  { rewrite <- (leaves_symbols root Hfull).
    apply (Permutation_NoDup (l := map snd ft)); [|exact Hnodup].
    rewrite (Permutation_map fst Hleaves), map_map. reflexivity. }
  set (g := fun c => (count_occ ascii_dec text c * length (substitute table c))%nat).
  destruct (leaf_records_views root Hfull 0) as (Hwd & Hld & Hlv).
  unfold wpl. rewrite Hwd, (cost_of_records g).
  - f_equal. rewrite length_flat_map.
    rewrite (sum_by_symbol (fun x => length (substitute table x)) (leaf_symbols root) text Hnd)
      by (intros x Hx; now apply Hsyms).
    f_equal. rewrite <- (leaves_symbols root Hfull), Hlv, !map_map. reflexivity.
  - apply Forall_forall. intros [[c w] d] Hx. cbn [fst snd]. unfold g.
    assert (Hcw : In (c, w) (leaves root)).
    { rewrite Hlv. apply in_map_iff. now exists (c, w, d). }
    apply (Permutation_in _ Hleaves), in_map_iff in Hcw.
    destruct Hcw as ([w' c'] & E & Hin). cbn [fst snd] in E. injection E as -> ->.
    apply Hentries in Hin. destruct Hin as [Hc Hw].
    assert (Hdc : In (d, c) (leaf_depths 0 root)).
    { rewrite Hld. apply in_map_iff. now exists (c, w, d). }
    destruct (map_find c table) as [wd|] eqn:Hfind; [|now apply Hdef in Hc].
    assert (Hd : d = N.of_nat (length wd)).
    { apply (NoDup_snd_functional (leaf_depths 0 root) d (N.of_nat (length wd)) c).
      - now rewrite leaf_depths_symbols.
      - exact Hdc.
      - now apply Hdepth. }
    unfold substitute. rewrite Hfind, Hd, Hw. lia.
Qed.

Lemma encoded_length_is_weighted_path_length_witness :
  exists root table bits,
    detail.createHuffmanTree (detail.createFrequencyTable (str "aabbbcc")) = Returns root /\
    createEncodingTable (str "aabbbcc") = Returns table /\
    encode 7 (str "aabbbcc") table = Returns bits /\
    N.of_nat (length bits) = wpl root.
Proof.
  apply (encoded_length_is_weighted_path_length (str "aabbbcc") "a" "b" 7).
  - now left.
  - right. right. now left.
  - discriminate.
  - simpl. intros H. repeat (destruct H as [H|H]; [discriminate|]). exact H.
  - simpl. intros H. repeat (destruct H as [H|H]; [discriminate|]). exact H.
  - simpl. lia.
  - reflexivity.
Defined.

(** ** printSet *)

Section PrintSet.

Import chernikova.

Lemma printLoop_spec (it : string_set) (output : ostream) (x : cstring) :
  let (out, last) := printLoop output (x :: it) in
  exists y, last = [y] /\ out ++ y = output ++ joined (x :: it).
Proof.
  revert output x. induction it as [|z it IH]; intros output x.
  - simpl. exists x. now rewrite app_nil_r.
  - change (printLoop output (x :: z :: it))
      with (printLoop (output ++ x ++ str " ") (z :: it)).
    specialize (IH (output ++ x ++ str " ") z).
    destruct (printLoop (output ++ x ++ str " ") (z :: it)) as [out last].
    destruct IH as (y & -> & E). exists y. split; [reflexivity|].
    rewrite E. unfold joined. cbn [flat_map str list_ascii_of_string].
    rewrite <- !app_assoc. reflexivity.
Qed.

Lemma printSet_joined (output : ostream) (set : string_set) :
  printSet output set = output ++ joined set.
Proof.
  destruct set as [|x it]; [simpl; now rewrite app_nil_r|].
  unfold printSet. pose proof (printLoop_spec it output x) as H.
  destruct (printLoop output (x :: it)) as [out last].
  destruct H as (y & -> & E). exact E.
Qed.

Lemma pieces_app (w s v : cstring) (vs : list cstring) :
  ~ In " "%char w ->
  pieces s = v :: vs ->
  pieces (w ++ s) = (w ++ v) :: vs.
Proof.
  intros Hw E. induction w as [|c w IH]; [exact E|].
  cbn [app pieces]. destruct (ascii_dec c " "%char) as [->|Hc].
  - exfalso. apply Hw. now left.
  - rewrite IH by (intros H; apply Hw; now right). reflexivity.
Qed.

Lemma pieces_no_space (w : cstring) :
  ~ In " "%char w -> pieces w = [w].
Proof.
  intros Hw. rewrite <- (app_nil_r w) at 1.
  rewrite (pieces_app w [] [] [] Hw eq_refl). now rewrite app_nil_r.
Qed.

Lemma pieces_joined (x : cstring) (rest : list cstring) :
  Forall (fun w => ~ In " "%char w) (x :: rest) ->
  pieces (joined (x :: rest)) = x :: rest.
Proof.
  revert x. induction rest as [|y rest IH]; intros x Hall.
  - unfold joined. cbn [flat_map]. rewrite app_nil_r.
    apply pieces_no_space. now inversion Hall.
  - inversion Hall as [|? ? Hx Hrest]; subst.
    unfold joined. cbn [flat_map].
    rewrite (pieces_app x _ [] (y :: rest) Hx); [now rewrite app_nil_r|].
    cbn [app pieces]. destruct (ascii_dec " "%char " "%char) as [_|Hn]; [|now elim Hn].
    change (y ++ flat_map (fun y0 => " "%char :: y0) rest) with (joined (y :: rest)).
    now rewrite (IH y Hrest).
Qed.

End PrintSet.

(** X19. [printSet] keeps what the stream holds and appends the elements of
    the set in their order, with one space between two neighbours and
    nothing before the first or after the last one; for the empty set it
    writes nothing. *)
Theorem printSet_separates_elements
    (output : chernikova.ostream) (set : chernikova.string_set) :
  chernikova.printSet output set = output ++ joined set.
Proof.
  apply printSet_joined.
Qed.

(** X20. The set is read back from what [printSet] writes to an empty
    stream: when the set is not empty and none of its elements holds a
    space, the pieces between the spaces of the output are the elements of
    the set, in order. *)
Theorem printSet_output_splits_into_elements (set : chernikova.string_set) :
  set <> [] ->
  Forall (fun w => ~ In " "%char w) set ->
  pieces (chernikova.printSet [] set) = set.
Proof.
  intros Hne Hall. rewrite printSet_joined. cbn [app].
  destruct set as [|x rest]; [contradiction|].
  now apply pieces_joined.
Qed.

Lemma printSet_output_splits_into_elements_witness :
  pieces (chernikova.printSet [] [str ""; str "cat"; str "dog"]) =
  [str ""; str "cat"; str "dog"].
Proof.
  apply printSet_output_splits_into_elements.
  - discriminate.
  - repeat (apply Forall_cons;
            [simpl; intros H; repeat (destruct H as [H|H]; [discriminate|]); exact H|]).
    apply Forall_nil.
Defined.
